(** * OTC Action Logger: the process-gated connection supervisor and its log sink

    A shallow embedding of [src/main.py] and the properties the
    specification states about it.

    The program watches the process list for the trading terminal, opens an
    API session when it is there, logs every order event to a SQLite table,
    to a JSON document and to a Telegram chat, and retries for ever.

    Layout: text and the readiness poller; Python values and the [json]
    codec the sink goes through; the log sink; the event handlers; the
    supervisor loop; then the theorems, one block per component. *)

From Stdlib Require Import String Ascii List ZArith Bool Lia Arith.
From Stdlib Require Import DecimalString.
From Stdlib Require DecimalZ DecimalFacts DecimalPos.
Import ListNotations.

Open Scope string_scope.

(* ================================================================== *)
(** * Text *)

(** Python [str] is modelled by [string]; a character is a code point of
    the Latin-1 range (0..255), which is closed under [str.lower]. *)

(** [str.lower] on one code point: [A-Z] and the accented capitals
    U+00C0..U+00DE (the multiplication sign U+00D7 apart) move up by 32. *)
Definition lower_char (c : ascii) : ascii :=
  let n := N_of_ascii c in
  if ((65 <=? n) && (n <=? 90) || (192 <=? n) && (n <=? 222) && negb (n =? 215))%N
  then ascii_of_N (n + 32)
  else c.

(** [s.lower()] *)
Fixpoint lower (s : string) : string :=
  match s with
  | EmptyString => EmptyString
  | String c t => String (lower_char c) (lower t)
  end.

(** [needle in hay] on two strings. *)
Fixpoint str_in (needle hay : string) : bool :=
  if prefix needle hay then true
  else match hay with
       | EmptyString => false
       | String _ t => str_in needle t
       end.

(** Truthiness of a [str]: only the empty string is false. *)
Definition truthy (s : string) : bool :=
  match s with EmptyString => false | _ => true end.

(* ================================================================== *)
(** * Readiness poller ([is_tws_running]) *)

(** One entry of [psutil.process_iter(['name'])]: [proc.info['name']] is
    [None] when the name cannot be read. *)
Record proc : Type := Proc { info_name : option string }.

(** The body of the [if] in the loop: [proc.info['name'] and
    NAME.lower() in proc.info['name'].lower()]. *)
Definition proc_matches (TWS_PROCESS_NAME : string) (p : proc) : bool :=
  match info_name p with
  | None => false
  | Some n => truthy n && str_in (lower TWS_PROCESS_NAME) (lower n)
  end.

(** [is_tws_running()]: the first matching process returns [True]; the end
    of the iteration returns [False]. *)
Fixpoint is_tws_running (TWS_PROCESS_NAME : string) (procs : list proc) : bool :=
  match procs with
  | [] => false
  | p :: rest =>
      if proc_matches TWS_PROCESS_NAME p then true
      else is_tws_running TWS_PROCESS_NAME rest
  end.

(** What "case-insensitive substring" means, stated without [lower] on
    whole strings: two strings spell the same letters when they have the
    same length and agree position by position up to case. *)
Inductive same_letters : string -> string -> Prop :=
| same_nil : same_letters "" ""
| same_cons a b s t :
    lower_char a = lower_char b -> same_letters s t ->
    same_letters (String a s) (String b t).

Definition ci_substring (needle hay : string) : Prop :=
  exists pre mid post, hay = pre ++ mid ++ post /\ same_letters needle mid.

(** A process whose name can be read and is not empty. *)
Definition named (p : proc) (n : string) : Prop :=
  info_name p = Some n /\ n <> "".

(* ================================================================== *)
(** * Python values *)

(** The values the program passes around as [raw_data]: what [json] maps to
    and from, and instances of any other class. A [float] is carried by its
    [repr], the one thing the program reads of it (an f-string and
    [json.dumps] both write [float.__repr__]). A [dict] keeps its items in
    insertion order; its keys are strings, as those of [obj.__dict__] and
    of a decoded JSON object are. *)
#[warnings="-register-all"]
Inductive pyval : Type :=
| PNone
| PBool (b : bool)
| PInt (z : Z)
| PFloat (repr : string)
| PStr (s : string)
| PList (l : list pyval)
| PDict (d : list (string * pyval))
| PObject (cls : string).

(** [type(v).__name__] *)
Definition type_name (v : pyval) : string :=
  match v with
  | PNone => "NoneType"
  | PBool _ => "bool"
  | PInt _ => "int"
  | PFloat _ => "float"
  | PStr _ => "str"
  | PList _ => "list"
  | PDict _ => "dict"
  | PObject cls => cls
  end.

(** An exception instance: its class and [str(e)]. Every exception of the
    model derives from [Exception]. *)
Record exn : Type := Exn { exn_class : string; exn_msg : string }.

Inductive outcome (A : Type) : Type :=
| Ok (a : A)
| Raise (e : exn).
Arguments Ok {A} a.
Arguments Raise {A} e.

(** [d[k] = v] on an insertion-ordered dict: an existing key keeps its
    place and takes the new value, a new key goes last. *)
Fixpoint dict_set (d : list (string * pyval)) (k : string) (v : pyval)
  : list (string * pyval) :=
  match d with
  | [] => [(k, v)]
  | (k', v') :: rest =>
      if String.eqb k' k then (k', v) :: rest else (k', v') :: dict_set rest k v
  end.

(* ================================================================== *)
(** * The [json] codec

    [json.dumps], [json.dump(.., indent=2)] and [json.load] are library
    code; the sink's behaviour depends on what they write and on what they
    accept, so they are modelled here: the text layouts of the encoder, and
    the decoder as a tokenizer followed by a parser. *)

Definition dquote : ascii := "034"%char.
Definition newline : ascii := "010"%char.

Definition quoted (body : string) : string :=
  String dquote (body ++ String dquote "").

(** ** Encoder *)

Definition hex_digit (n : N) : ascii :=
  if (n <? 10)%N then ascii_of_N (48 + n) else ascii_of_N (87 + n).

(** [ensure_ascii=True]: the quote, the backslash and the five short
    control escapes; any other character outside [' '..'~'] as [\u00xx]. *)
Definition escape_char (c : ascii) : string :=
  let n := N_of_ascii c in
  if (n =? 34)%N then "\" ++ String dquote ""
  else if (n =? 92)%N then "\\"
  else if (n =? 10)%N then "\n"
  else if (n =? 13)%N then "\r"
  else if (n =? 9)%N then "\t"
  else if (n =? 8)%N then "\b"
  else if (n =? 12)%N then "\f"
  else if ((32 <=? n) && (n <=? 126))%N then String c ""
  else "\u00" ++ String (hex_digit (n / 16)) (String (hex_digit (n mod 16)) "").

Fixpoint escape (s : string) : string :=
  match s with
  | EmptyString => EmptyString
  | String c t => escape_char c ++ escape t
  end.

Definition str_text (s : string) : string := quoted (escape s).

(** [int.__repr__] *)
Definition int_text (z : Z) : string :=
  NilEmpty.string_of_int (Z.to_int z).

(** [float.__repr__] as the encoder writes it: the three non-finite values
    have names of their own. *)
Definition float_text (repr : string) : string :=
  if String.eqb repr "nan" then "NaN"
  else if String.eqb repr "inf" then "Infinity"
  else if String.eqb repr "-inf" then "-Infinity"
  else repr.

Fixpoint join (sep : string) (l : list string) : string :=
  match l with
  | [] => ""
  | [x] => x
  | x :: rest => x ++ sep ++ join sep rest
  end.

(** The first object the encoder meets that it has no encoding for, in the
    order it walks the value. *)
Fixpoint first_unserializable (v : pyval) : option pyval :=
  match v with
  | PList l =>
      (fix go (l : list pyval) : option pyval :=
         match l with
         | [] => None
         | x :: rest =>
             match first_unserializable x with
             | Some o => Some o
             | None => go rest
             end
         end) l
  | PDict d =>
      (fix go (d : list (string * pyval)) : option pyval :=
         match d with
         | [] => None
         | (_, x) :: rest =>
             match first_unserializable x with
             | Some o => Some o
             | None => go rest
             end
         end) d
  | PObject _ => Some v
  | _ => None
  end.

(** The text of [json.dumps(v)]: separators [", "] and [": "]. *)
Fixpoint compact (v : pyval) : string :=
  match v with
  | PNone => "null"
  | PBool true => "true"
  | PBool false => "false"
  | PInt z => int_text z
  | PFloat r => float_text r
  | PStr s => str_text s
  | PList l => "[" ++ join ", " (map compact l) ++ "]"
  | PDict d =>
      "{" ++ join ", " (map (fun kv => str_text (fst kv) ++ ": " ++ compact (snd kv)) d)
          ++ "}"
  | PObject _ => ""
  end.

Fixpoint spaces (n : nat) : string :=
  match n with
  | O => ""
  | S n' => String " " (spaces n')
  end.

(** A line break and the indentation of nesting level [depth]. *)
Definition nl (depth : nat) : string := String newline (spaces (2 * depth)).

(** The text of [json.dump(v, f, indent=2)]: one item per line, separators
    [","] and [": "], empty containers on one line. *)
Fixpoint pretty (depth : nat) (v : pyval) : string :=
  match v with
  | PList [] => "[]"
  | PList l =>
      "[" ++ nl (S depth)
          ++ join ("," ++ nl (S depth)) (map (pretty (S depth)) l)
          ++ nl depth ++ "]"
  | PDict [] => "{}"
  | PDict d =>
      "{" ++ nl (S depth)
          ++ join ("," ++ nl (S depth))
               (map (fun kv => str_text (fst kv) ++ ": " ++ pretty (S depth) (snd kv)) d)
          ++ nl depth ++ "}"
  | _ => compact v
  end.

Definition not_serializable (o : pyval) : exn :=
  Exn "TypeError" ("Object of type " ++ type_name o ++ " is not JSON serializable").

(** [json.dumps(v)] *)
Definition json_dumps (v : pyval) : outcome string :=
  match first_unserializable v with
  | Some o => Raise (not_serializable o)
  | None => Ok (compact v)
  end.

(** The whole text [json.dump(v, f, indent=2)] writes when it succeeds. *)
Definition json_dump_indent2 (v : pyval) : outcome string :=
  match first_unserializable v with
  | Some o => Raise (not_serializable o)
  | None => Ok (pretty 0 v)
  end.


(** ** Decoder: tokens *)

Inductive token : Type :=
| TLBrace | TRBrace | TLBrack | TRBrack | TComma | TColon
| TString (s : string)
| TInt (z : Z)
| TFloat (repr : string)
| TTrue | TFalse | TNull.

Definition is_ws (c : ascii) : bool :=
  let n := N_of_ascii c in
  ((n =? 32) || (n =? 9) || (n =? 10) || (n =? 13))%N.

Definition is_digit (c : ascii) : bool :=
  let n := N_of_ascii c in ((48 <=? n) && (n <=? 57))%N.

Fixpoint skip_ws (s : string) : string :=
  match s with
  | String c t => if is_ws c then skip_ws t else s
  | EmptyString => EmptyString
  end.

(** The longest run of digits at the head of [s], and what follows it. *)
Fixpoint span_digits (s : string) : string * string :=
  match s with
  | String c t =>
      if is_digit c
      then let (d, r) := span_digits t in (String c d, r)
      else (EmptyString, s)
  | EmptyString => (EmptyString, EmptyString)
  end.

Definition hex_value (c : ascii) : option N :=
  let n := N_of_ascii c in
  if ((48 <=? n) && (n <=? 57))%N then Some (n - 48)%N
  else if ((97 <=? n) && (n <=? 102))%N then Some (n - 87)%N
  else if ((65 <=? n) && (n <=? 70))%N then Some (n - 55)%N
  else None.

(** The code point of [\uXXXX]. *)
Definition hex4 (a b c d : ascii) : option N :=
  match hex_value a, hex_value b, hex_value c, hex_value d with
  | Some x, Some y, Some z, Some w => Some (((x * 16 + y) * 16 + z) * 16 + w)%N
  | _, _, _, _ => None
  end.

(** The character a one-letter escape stands for. *)
Definition unescape (e : ascii) : option ascii :=
  if (e =? dquote)%char then Some dquote
  else if (e =? "\")%char then Some "\"%char
  else if (e =? "/")%char then Some "/"%char
  else if (e =? "b")%char then Some (ascii_of_N 8)
  else if (e =? "f")%char then Some (ascii_of_N 12)
  else if (e =? "n")%char then Some (ascii_of_N 10)
  else if (e =? "r")%char then Some (ascii_of_N 13)
  else if (e =? "t")%char then Some (ascii_of_N 9)
  else None.

Definition prepend (c : ascii) (r : string * string) : string * string :=
  (String c (fst r), snd r).

(** The body of a string literal, after its opening quote: the decoded
    text and what follows the closing quote. A raw control character, an
    unknown escape and a missing closing quote are errors. An escape
    [\uXXXX] above [\u00ff] names a character outside the model's alphabet
    and is refused as well (the encoder above never writes one). *)
Fixpoint scanstring (s : string) : option (string * string) :=
  match s with
  | EmptyString => None
  | String c t =>
      if (c =? dquote)%char then Some (EmptyString, t)
      else if (c =? "\")%char then
        match t with
        | EmptyString => None
        | String e u =>
            if (e =? "u")%char then
              match u with
              | String h1 (String h2 (String h3 (String h4 v))) =>
                  match hex4 h1 h2 h3 h4 with
                  | Some n =>
                      if (n <? 256)%N
                      then option_map (prepend (ascii_of_N n)) (scanstring v)
                      else None
                  | None => None
                  end
              | _ => None
              end
            else
              match unescape e with
              | Some c' => option_map (prepend c') (scanstring u)
              | None => None
              end
        end
      else if (N_of_ascii c <? 32)%N then None
      else option_map (prepend c) (scanstring t)
  end.

(** [c in s] for a single character [c]. *)
Fixpoint char_in (c : ascii) (s : string) : bool :=
  match s with
  | EmptyString => false
  | String a t => (a =? c)%char || char_in c t
  end.

(** An optional sign, one of the characters of [signs], at the head of [s]. *)
Definition lex_sign (signs s : string) : string * string :=
  match s with
  | String c t => if char_in c signs then (String c "", t) else ("", s)
  | EmptyString => ("", s)
  end.

(** The digits of the integer part: a single [0], or a digit other than
    [0] followed by any digits. *)
Definition lex_int_digits (s : string) : option (string * string) :=
  match s with
  | String c t =>
      if (c =? "0")%char then Some ("0", t)
      else if is_digit c
      then let (d, r) := span_digits t in Some (String c d, r)
      else None
  | EmptyString => None
  end.

(** The integer part of a number: an optional minus sign and the digits. *)
Definition lex_int_part (s : string) : option (string * string) :=
  let (sign, s1) := lex_sign "-" s in
  match lex_int_digits s1 with
  | Some (d, r) => Some (sign ++ d, r)
  | None => None
  end.

(** The optional fraction: a dot and at least one digit. *)
Definition lex_frac (s : string) : string * string :=
  match s with
  | String c t =>
      if (c =? ".")%char then
        match span_digits t with
        | (EmptyString, _) => (EmptyString, s)
        | (d, r) => (String c d, r)
        end
      else (EmptyString, s)
  | EmptyString => (EmptyString, s)
  end.

(** The optional exponent: [e] or [E], an optional sign, at least one digit. *)
Definition lex_exp (s : string) : string * string :=
  match s with
  | String c t =>
      if ((c =? "e") || (c =? "E"))%char then
        let (sign, t1) := lex_sign "+-" t in
        match span_digits t1 with
        | (EmptyString, _) => (EmptyString, s)
        | (d, r) => (String c (sign ++ d), r)
        end
      else (EmptyString, s)
  | EmptyString => (EmptyString, s)
  end.

(** A number: an [int] when it has neither fraction nor exponent, a
    [float] (named by its literal) otherwise. *)
Definition lex_number (s : string) : option (token * string) :=
  match lex_int_part s with
  | None => None
  | Some (i, s1) =>
      let (f, s2) := lex_frac s1 in
      let (e, s3) := lex_exp s2 in
      match f, e with
      | EmptyString, EmptyString =>
          match NilEmpty.int_of_string i with
          | Some d => Some (TInt (Z.of_int d), s3)
          | None => None
          end
      | _, _ => Some (TFloat (i ++ f ++ e), s3)
      end
  end.

(** [strip_prefix p s]: what follows [p] at the head of [s]. *)
Fixpoint strip_prefix (p s : string) : option string :=
  match p with
  | EmptyString => Some s
  | String a p' =>
      match s with
      | String b s' => if (a =? b)%char then strip_prefix p' s' else None
      | EmptyString => None
      end
  end.

(** The first of the words [(p, t)] that [s] starts with, as the token [t]. *)
Fixpoint lex_word (words : list (string * token)) (s : string)
  : option (token * string) :=
  match words with
  | [] => None
  | (p, t) :: rest =>
      match strip_prefix p s with
      | Some r => Some (t, r)
      | None => lex_word rest s
      end
  end.

(** One token at the head of [s], which does not start with white space:
    punctuation, a string, a literal name, a number, or one of the names
    of the non-finite floats. *)
Definition next_token (s : string) : option (token * string) :=
  match s with
  | EmptyString => None
  | String c t =>
      if (c =? "{")%char then Some (TLBrace, t)
      else if (c =? "}")%char then Some (TRBrace, t)
      else if (c =? "[")%char then Some (TLBrack, t)
      else if (c =? "]")%char then Some (TRBrack, t)
      else if (c =? ",")%char then Some (TComma, t)
      else if (c =? ":")%char then Some (TColon, t)
      else if (c =? dquote)%char then
        match scanstring t with
        | Some (x, r) => Some (TString x, r)
        | None => None
        end
      else
        match lex_word [("null", TNull); ("true", TTrue); ("false", TFalse)] s with
        | Some res => Some res
        | None =>
            match lex_number s with
            | Some res => Some res
            | None =>
                lex_word [("NaN", TFloat "nan"); ("Infinity", TFloat "inf");
                          ("-Infinity", TFloat "-inf")] s
            end
        end
  end.

(** The tokens of [s]; [fuel] bounds the number of tokens read. *)
Fixpoint lex (fuel : nat) (s : string) : option (list token) :=
  match fuel with
  | O => None
  | S fuel' =>
      match skip_ws s with
      | EmptyString => Some []
      | s' =>
          match next_token s' with
          | Some (t, r) => option_map (cons t) (lex fuel' r)
          | None => None
          end
      end
  end.

(** Every token takes at least one character, so the length of the text is
    fuel enough. *)
Definition tokenize (s : string) : option (list token) :=
  lex (S (String.length s)) s.

(** ** Decoder: parser *)

(** A value at the head of [ts] and the tokens after it. [parse_elements]
    reads the rest of an array after its ["["] or a [","], [parse_members]
    the rest of an object after its ["{"] or a [","]; a repeated key keeps
    its first place and takes the last value, as building a [dict] does. *)
Fixpoint parse_value (fuel : nat) (ts : list token) {struct fuel}
  : option (pyval * list token) :=
  match fuel with
  | O => None
  | S fuel' =>
      match ts with
      | TNull :: r => Some (PNone, r)
      | TTrue :: r => Some (PBool true, r)
      | TFalse :: r => Some (PBool false, r)
      | TInt z :: r => Some (PInt z, r)
      | TFloat f :: r => Some (PFloat f, r)
      | TString s :: r => Some (PStr s, r)
      | TLBrack :: TRBrack :: r => Some (PList [], r)
      | TLBrack :: r => parse_elements fuel' r []
      | TLBrace :: TRBrace :: r => Some (PDict [], r)
      | TLBrace :: r => parse_members fuel' r []
      | _ => None
      end
  end
with parse_elements (fuel : nat) (ts : list token) (acc : list pyval) {struct fuel}
  : option (pyval * list token) :=
  match fuel with
  | O => None
  | S fuel' =>
      match parse_value fuel' ts with
      | Some (v, TComma :: r) => parse_elements fuel' r (acc ++ [v])
      | Some (v, TRBrack :: r) => Some (PList (acc ++ [v]), r)
      | _ => None
      end
  end
with parse_members (fuel : nat) (ts : list token) (acc : list (string * pyval))
  {struct fuel} : option (pyval * list token) :=
  match fuel with
  | O => None
  | S fuel' =>
      match ts with
      | TString k :: TColon :: r =>
          match parse_value fuel' r with
          | Some (v, TComma :: r') => parse_members fuel' r' (dict_set acc k v)
          | Some (v, TRBrace :: r') => Some (PDict (dict_set acc k v), r')
          | _ => None
          end
      | _ => None
      end
  end.

(** One value and nothing after it. *)
Definition parse (ts : list token) : option pyval :=
  match parse_value (S (List.length ts)) ts with
  | Some (v, []) => Some v
  | _ => None
  end.

(** [json.loads(s)] and [json.load(f)] on the text [s]: [None] stands for
    [json.JSONDecodeError]. *)
Definition json_loads (s : string) : option pyval :=
  match tokenize s with
  | Some ts => parse ts
  | None => None
  end.



(** ** What the codec is specified on *)

(** [r] is the [repr] of a float: a number literal with a fraction or an
    exponent, or the name of a non-finite value. *)
Definition float_repr (r : string) : bool :=
  (r =? "nan")%string || (r =? "inf")%string || (r =? "-inf")%string ||
  match lex_number r with
  | Some (TFloat r', EmptyString) => (r' =? r)%string
  | _ => false
  end.

Fixpoint distinct (keys : list string) : bool :=
  match keys with
  | [] => true
  | k :: rest => negb (existsb (String.eqb k) rest) && distinct rest
  end.

(** The terms of [pyval] that are Python values: a float has a [repr] a
    float can have, and a dict has each key once. *)
Fixpoint python_value (v : pyval) : bool :=
  match v with
  | PFloat r => float_repr r
  | PList l => forallb python_value l
  | PDict d => distinct (map fst d) && forallb (fun kv => python_value (snd kv)) d
  | _ => true
  end.

Fixpoint sep_concat {A} (sep : A) (l : list (list A)) : list A :=
  match l with
  | [] => []
  | [x] => x
  | x :: rest => x ++ sep :: sep_concat sep rest
  end.

(** The tokens of the text the encoder writes for [v], in either layout. *)
Fixpoint tokens (v : pyval) : list token :=
  match v with
  | PNone => [TNull]
  | PBool true => [TTrue]
  | PBool false => [TFalse]
  | PInt z => [TInt z]
  | PFloat r => [TFloat r]
  | PStr s => [TString s]
  | PList l => TLBrack :: sep_concat TComma (map tokens l) ++ [TRBrack]
  | PDict d =>
      TLBrace
        :: sep_concat TComma
             (map (fun kv => TString (fst kv) :: TColon :: tokens (snd kv)) d)
        ++ [TRBrace]
  | PObject _ => []
  end.

(** [rest] cannot continue a number: it is empty or starts with a
    character that is no digit, dot, exponent mark or sign. *)
Definition number_stops (rest : string) : bool :=
  match rest with
  | EmptyString => true
  | String c _ =>
      negb (is_digit c || (c =? ".") || (c =? "e") || (c =? "E")
            || (c =? "+") || (c =? "-"))%char
  end.

(** [rest] starts where a value may end: at the end of the text, before a
    comma or a closing bracket, or at white space. *)
Definition delimited (rest : string) : bool :=
  match rest with
  | EmptyString => true
  | String c _ => ((c =? ",") || (c =? "]") || (c =? "}"))%char || is_ws c
  end.

(** The text [s] reads as the tokens [ts], whatever delimited text follows. *)
Definition lexes (s : string) (ts : list token) : Prop :=
  forall rest, delimited rest = true ->
    tokenize (s ++ rest) = option_map (app ts) (tokenize rest).

(** [json.dumps(v)] does not raise. *)
Definition encodable (v : pyval) : Prop := first_unserializable v = None.

(** [x] does not start with a digit. *)
Definition nondigit (x : string) : bool :=
  match x with
  | EmptyString => true
  | String c _ => negb (is_digit c)
  end.

(** A float token names a float. *)
Definition token_ok (t : token) : Prop :=
  match t with
  | TFloat r => float_repr r = true
  | _ => True
  end.

(** A Python value that the encoder accepts. *)
Definition good (v : pyval) : Prop := encodable v /\ python_value v = true.

(* ================================================================== *)
(** * The world the program acts on *)

(** A row of the table [activity(timestamp, event_type, description,
    raw_data)], all four columns [TEXT]. *)
Record row : Type := Row {
  row_timestamp : string;
  row_event_type : string;
  row_description : string;
  row_raw_data : string
}.

(** What the program does to its surroundings, in the order it does it. *)
Inductive effect : Type :=
| Print (line : string)                      (* print(...) *)
| DbInsert (r : row)                         (* INSERT INTO activity, committed *)
| FileWrite (text : string)                  (* the JSON document rewritten *)
| Send (text : string) (failure : option exn) (* bot.send_message attempted *)
| Sleep (seconds : Z)                        (* time.sleep(...) *)
| Poll (ready : bool)                        (* is_tws_running() answered *)
| Connect (failure : option exn)             (* ib.connect(...) attempted *)
| Run (failure : option exn).                (* ib.run() came back *)

(** The relational store (the rows of [activity], oldest first), the
    document file ([None] when it does not exist), the effects so far, and
    three counters that index the answers of the surroundings below. *)
Record world : Type := World {
  db : list row;
  json_file : option string;
  trace : list effect;
  calls : nat;
  polls : nat;
  attempts : nat
}.

(** An IBKR event as its handler reads it: the attributes the description
    is built from and the object's [__dict__]. *)
Inductive scalar : Type :=
| SNone
| SBool (b : bool)
| SInt (z : Z)
| SFloat (repr : string)
| SStr (s : string).

Inductive event : Type :=
| OrderStatusEvent (status : scalar) (dict : list (string * pyval))
| ExecDetailsEvent (side shares price : scalar) (dict : list (string * pyval))
| OpenOrderEvent (action totalQuantity : scalar) (dict : list (string * pyval)).

(** Everything the program reads from outside: its configuration, the
    clock, the Telegram bot, the process list and the IBKR session. The
    [n]-th call of [log_event] reads the clock as [utcnow n] and has
    [bot.send_message] behave as [send_message n]; the [n]-th poll sees the
    processes [process_iter n]; the [n]-th connection attempt has
    [ib.connect] behave as [ib_connect n] and, once connected, [ib.run()]
    deliver the events [fst (ib_session n)] and then return or raise as
    [snd (ib_session n)] says. For [option exn], [None] is a normal return
    and [Some e] raises [e]. Whether an exception raised by a handler
    comes out of [ib.run()] is the event library's business:
    [handler_errors_escape] says which. *)
Record environment : Type := Environment {
  TWS_PROCESS_NAME : string;
  utcnow : nat -> string;
  send_message : nat -> string -> option exn;
  process_iter : nat -> list proc;
  ib_connect : nat -> option exn;
  ib_session : nat -> list event * option exn;
  handler_errors_escape : bool
}.

(** ** Computations: a state and exception monad over the world *)

Definition M (A : Type) : Type := world -> world * outcome A.

Definition ret {A} (a : A) : M A := fun w => (w, Ok a).

Definition raise {A} (e : exn) : M A := fun w => (w, Raise e).

Definition bind {A B} (m : M A) (k : A -> M B) : M B :=
  fun w =>
    match m w with
    | (w', Ok a) => k a w'
    | (w', Raise e) => (w', Raise e)
    end.

(** [try: m except Exception as e: handler(e)] *)
Definition try_except {A} (m : M A) (handler : exn -> M A) : M A :=
  fun w =>
    match m w with
    | (w', Ok a) => (w', Ok a)
    | (w', Raise e) => handler e w'
    end.

Definition lift {A} (o : outcome A) : M A := fun w => (w, o).

Declare Scope monad_scope.
Delimit Scope monad_scope with monad.
Notation "x <- m ;; k" := (bind m (fun x => k))
  (at level 61, m at next level, right associativity) : monad_scope.
Notation "m ;; k" := (bind m (fun _ => k))
  (at level 61, right associativity) : monad_scope.
Open Scope monad_scope.

Definition emit (e : effect) : M unit :=
  fun w => (World (db w) (json_file w) (trace w ++ [e]) (calls w) (polls w) (attempts w),
            Ok tt).

Definition print (line : string) : M unit := emit (Print line).

Definition sleep (seconds : Z) : M unit := emit (Sleep seconds).

Definition next_call : M nat :=
  fun w => (World (db w) (json_file w) (trace w) (S (calls w)) (polls w) (attempts w),
            Ok (calls w)).

Definition next_poll : M nat :=
  fun w => (World (db w) (json_file w) (trace w) (calls w) (S (polls w)) (attempts w),
            Ok (polls w)).

Definition next_attempt : M nat :=
  fun w => (World (db w) (json_file w) (trace w) (calls w) (polls w) (S (attempts w)),
            Ok (attempts w)).

(* ================================================================== *)
(** * Log sink ([init_db], [send_telegram_message], [log_event]) *)

(** [init_db()]: [CREATE TABLE IF NOT EXISTS]; the table is [db], whose
    rows it leaves alone. *)
Definition init_db : M unit := ret tt.

(** [c.execute("INSERT INTO activity VALUES (?, ?, ?, ?)", ...)] and
    [conn.commit()]. *)
Definition db_insert (r : row) : M unit :=
  fun w => (World (db w ++ [r]) (json_file w) (trace w ++ [DbInsert r])
                  (calls w) (polls w) (attempts w),
            Ok tt).

(** Lines 64-70: [logs = []], replaced by [json.load(f)] when the file
    exists and decodes. *)
Definition load_logs : M pyval :=
  fun w =>
    (w, Ok match json_file w with
           | None => PList []
           | Some text =>
               match json_loads text with
               | Some v => v
               | None => PList []
               end
           end).

(** [logs.append(entry)]: only a [list] has the method. *)
Definition list_append (logs entry : pyval) : outcome pyval :=
  match logs with
  | PList l => Ok (PList (l ++ [entry]))
  | _ => Raise (Exn "AttributeError"
                  ("'" ++ type_name logs ++ "' object has no attribute 'append'"))
  end.

Definition set_file (text : string) : M unit :=
  fun w => (World (db w) (Some text) (trace w ++ [FileWrite text])
                  (calls w) (polls w) (attempts w),
            Ok tt).

(** Lines 72-73: [open(JSON_LOG_FILE, 'w')] empties the file and
    [json.dump] fills it. Should the encoder raise, the file stays as far
    as it got; that text is not modelled (the file is left empty), since in
    [log_event] the encoder cannot raise here
    ([log_event_document_always_encodes]). *)
Definition dump_logs (logs : pyval) : M unit :=
  match json_dump_indent2 logs with
  | Ok text => set_file text
  | Raise e => set_file "" ;; raise e
  end.

(** [send_telegram_message(message)], run to completion by
    [asyncio.run]; [n] is the number of the [log_event] call. *)
Definition send_telegram_message (env : environment) (n : nat) (message : string)
  : M unit :=
  match send_message env n message with
  | None => emit (Send message None)
  | Some e =>
      emit (Send message (Some e)) ;;
      print ("[WARNING] Failed to send Telegram message: " ++ exn_msg e)
  end.

(** The message of line 76. *)
Definition notification (event_type description : string) : string :=
  "[" ++ event_type ++ "] " ++ description.

(** The [entry] dict of lines 49-54. *)
Definition log_entry (timestamp event_type description : string) (raw_data : pyval)
  : pyval :=
  PDict [("timestamp", PStr timestamp);
         ("event_type", PStr event_type);
         ("description", PStr description);
         ("raw_data", raw_data)].

(** [log_event(event_type, description, raw_data)] *)
Definition log_event (env : environment) (event_type description : string)
  (raw_data : pyval) : M unit :=
  n <- next_call ;;
  let timestamp := utcnow env n in
  let entry := log_entry timestamp event_type description raw_data in
  (* SQLite *)
  payload <- lift (json_dumps raw_data) ;;
  db_insert (Row timestamp event_type description payload) ;;
  (* JSON *)
  logs <- load_logs ;;
  logs <- lift (list_append logs entry) ;;
  dump_logs logs ;;
  (* Telegram *)
  send_telegram_message env n (notification event_type description).

(** ** What the sink is specified on *)

(** The entries [log_event] finds in the document: none when the file is
    missing or does not decode, the items when it holds an array; [None]
    when it holds some other JSON value. *)
Definition stored_entries (file : option string) : option (list pyval) :=
  match file with
  | None => Some []
  | Some text =>
      match json_loads text with
      | None => Some []
      | Some (PList l) => Some l
      | Some _ => None
      end
  end.

(** The effects of the notification step of the [n]-th call. *)
Definition send_effects (env : environment) (n : nat) (message : string)
  : list effect :=
  match send_message env n message with
  | None => [Send message None]
  | Some e =>
      [Send message (Some e);
       Print ("[WARNING] Failed to send Telegram message: " ++ exn_msg e)]
  end.

(** The world with another document file, or another Telegram bot. *)
Definition with_file (w : world) (file : option string) : world :=
  World (db w) file (trace w) (calls w) (polls w) (attempts w).

Definition with_bot (env : environment) (bot : nat -> string -> option exn)
  : environment :=
  Environment (TWS_PROCESS_NAME env) (utcnow env) bot (process_iter env)
    (ib_connect env) (ib_session env) (handler_errors_escape env).

(** A history of the document: calls of [log_event], whatever their
    outcome, and in between them anything else that replaces the file or
    removes it (the only way a later call can find it unreadable). *)
Inductive step : Type :=
| Call (event_type description : string) (raw_data : pyval)
| Tamper (file : option string).

Fixpoint run (env : environment) (steps : list step) (w : world) : world :=
  match steps with
  | [] => w
  | Call event_type description raw_data :: rest =>
      run env rest (fst (log_event env event_type description raw_data w))
  | Tamper file :: rest => run env rest (with_file w file)
  end.

Definition is_call (s : step) : bool :=
  match s with Call _ _ _ => true | Tamper _ => false end.


(** The rows and the entries the calls of a history write when each of
    them gets to its end, the first call being number [n]. *)
Fixpoint history_rows (env : environment) (n : nat) (steps : list step) : list row :=
  match steps with
  | [] => []
  | Call event_type description raw_data :: rest =>
      Row (utcnow env n) event_type description (compact raw_data)
        :: history_rows env (S n) rest
  | Tamper _ :: rest => history_rows env n rest
  end.

Fixpoint history_entries (env : environment) (n : nat) (steps : list step)
  : list pyval :=
  match steps with
  | [] => []
  | Call event_type description raw_data :: rest =>
      log_entry (utcnow env n) event_type description raw_data
        :: history_entries env (S n) rest
  | Tamper _ :: rest => history_entries env n rest
  end.

(** A step the sink copes with: a payload that encodes, a file that is
    missing, unreadable or an array. *)
Definition step_ok (s : step) : Prop :=
  match s with
  | Call _ _ raw_data => good raw_data
  | Tamper file => stored_entries file <> None
  end.

(* ================================================================== *)
(** * Event adapter ([setup_ibkr_event_listeners]) *)

(** [str(x)], which is what [f"{x}"] writes. *)
Definition py_str (x : scalar) : string :=
  match x with
  | SNone => "None"
  | SBool true => "True"
  | SBool false => "False"
  | SInt z => int_text z
  | SFloat r => r
  | SStr s => s
  end.

Definition handle_order_status (env : environment)
  (status : scalar) (dict : list (string * pyval)) : M unit :=
  log_event env "OrderStatus" ("Order status: " ++ py_str status) (PDict dict).

Definition handle_execution (env : environment)
  (side shares price : scalar) (dict : list (string * pyval)) : M unit :=
  log_event env "Execution"
    ("Trade executed: " ++ py_str side ++ " " ++ py_str shares ++ " @ " ++ py_str price)
    (PDict dict).

Definition handle_open_order (env : environment)
  (action totalQuantity : scalar) (dict : list (string * pyval)) : M unit :=
  log_event env "OpenOrder"
    ("New order detected: " ++ py_str action ++ " " ++ py_str totalQuantity)
    (PDict dict).

(** The three registrations: each event goes to its one handler. *)
Definition dispatch (env : environment) (ev : event) : M unit :=
  match ev with
  | OrderStatusEvent status dict => handle_order_status env status dict
  | ExecDetailsEvent side shares price dict => handle_execution env side shares price dict
  | OpenOrderEvent action qty dict => handle_open_order env action qty dict
  end.

(* ================================================================== *)
(** * Connection supervisor ([monitor_ibkr]) *)

(** The events of one session, delivered one after the other. *)
Fixpoint deliver (env : environment) (evs : list event) : M unit :=
  match evs with
  | [] => ret tt
  | ev :: rest =>
      try_except (dispatch env ev)
        (fun e => if handler_errors_escape env then raise e else ret tt) ;;
      deliver env rest
  end.

(** [ib.run()] of the [k]-th attempt. *)
Definition ib_run (env : environment) (k : nat) : M unit :=
  try_except
    (deliver env (fst (ib_session env k)) ;;
     match snd (ib_session env k) with
     | None => ret tt
     | Some e => raise e
     end ;;
     emit (Run None))
    (fun e => emit (Run (Some e)) ;; raise e).

(** [ib.connect(IBKR_HOST, IBKR_PORT, clientId=IBKR_CLIENT_ID)] of the
    [k]-th attempt. *)
Definition connect (env : environment) (k : nat) : M unit :=
  emit (Connect (ib_connect env k)) ;;
  match ib_connect env k with
  | None => ret tt
  | Some e => raise e
  end.

(** One turn of [while True]. *)
Definition iteration (env : environment) : M unit :=
  p <- next_poll ;;
  let ready := is_tws_running (TWS_PROCESS_NAME env) (process_iter env p) in
  emit (Poll ready) ;;
  if ready then
    print "[INFO] TWS detected. Connecting..." ;;
    k <- next_attempt ;;
    try_except
      (connect env k ;;
       print "[INFO] Connected and monitoring started." ;;
       ib_run env k)
      (fun e =>
         log_event env "Error" ("Failed to connect or monitor: " ++ exn_msg e) (PDict []) ;;
         sleep 10)
  else
    sleep 5.

(** The first [turns] turns of the loop. *)
Fixpoint loop (env : environment) (turns : nat) : M unit :=
  match turns with
  | O => ret tt
  | S n => iteration env ;; loop env n
  end.

(** [monitor_ibkr()], observed for [turns] turns of its endless loop: the
    outcome is [Ok] while the thread is still running and [Raise e] once an
    exception has ended it. *)
Definition monitor_ibkr (env : environment) (turns : nat) : M unit :=
  init_db ;;
  print "[INFO] Waiting for IBKR TWS to start..." ;;
  loop env turns.

(** ** What the supervisor is specified on: readings of a trace *)

(** The rows inserted, the answers of the poller, the connection attempts
    and the exceptions caught by the supervisor ([ib.connect] or [ib.run]
    raising), each in order. *)
Definition inserted (t : list effect) : list row :=
  flat_map (fun e => match e with DbInsert r => [r] | _ => [] end) t.

Definition polled (t : list effect) : list bool :=
  flat_map (fun e => match e with Poll ready => [ready] | _ => [] end) t.

Definition opens (t : list effect) : list (option exn) :=
  flat_map (fun e => match e with Connect failure => [failure] | _ => [] end) t.

Definition failures (t : list effect) : list exn :=
  flat_map (fun e => match e with
                     | Connect (Some x) | Run (Some x) => [x]
                     | _ => []
                     end) t.

Definition is_error_row (r : row) : bool := (row_event_type r =? "Error")%string.

(** The row the supervisor logs for the exception [e] at the clock [ts]. *)
Definition error_row (ts : string) (e : exn) : row :=
  Row ts "Error" ("Failed to connect or monitor: " ++ exn_msg e) "{}".

(** The number of changes from not ready to ready in a run of answers that
    follows the answer [previous]. *)
Fixpoint rising_edges (previous : bool) (answers : list bool) : nat :=
  match answers with
  | [] => 0
  | a :: rest =>
      (if negb previous && a then 1 else 0) + rising_edges a rest
  end.

(** The answers toggle: no two in a row are the same. *)
Fixpoint toggles (answers : list bool) : bool :=
  match answers with
  | a :: (b :: _) as rest => negb (Bool.eqb a b) && toggles rest
  | _ => true
  end.

(** An effect of the sink while it logs a record of type [event_type]. *)
Definition sink_effect (event_type : string) (e : effect) : Prop :=
  match e with
  | DbInsert r => row_event_type r = event_type
  | FileWrite _ | Send _ _ | Print _ => True
  | _ => False
  end.

(** An effect of the handlers during a session. *)
Definition session_effect (e : effect) : Prop :=
  sink_effect "OrderStatus" e \/ sink_effect "Execution" e \/ sink_effect "OpenOrder" e.

(** What the adapter makes of an event: type, description and payload. *)
Definition adapt (ev : event) : string * string * pyval :=
  match ev with
  | OrderStatusEvent status dict =>
      ("OrderStatus", "Order status: " ++ py_str status, PDict dict)
  | ExecDetailsEvent side shares price dict =>
      ("Execution",
       "Trade executed: " ++ py_str side ++ " " ++ py_str shares ++ " @ "
         ++ py_str price,
       PDict dict)
  | OpenOrderEvent action qty dict =>
      ("OpenOrder", "New order detected: " ++ py_str action ++ " " ++ py_str qty,
       PDict dict)
  end.

(** [w'] is [w] after the effects [new], the rows inserted among them
    appended to the table. *)
Definition grows (w w' : world) (new : list effect) : Prop :=
  trace w' = (trace w ++ new)%list /\ db w' = (db w ++ inserted new)%list.

(** [w] after the effects [new], none of them of the sink, with the
    counters of polls and attempts at [p] and [k]. *)
Definition after (w : world) (new : list effect) (p k : nat) : world :=
  World (db w) (json_file w) (trace w ++ new) (calls w) p k.

(** The event types the program writes. *)
Definition known_type (r : row) : Prop :=
  In (row_event_type r) ["OrderStatus"; "Execution"; "OpenOrder"; "Error"].

(** A notification: the attempt and, when it failed, the warning. *)
Definition notifies (sends : list effect) : Prop :=
  Forall (fun e => match e with Send _ _ | Print _ => True | _ => False end) sends.

(** The document can be appended to: it is missing, unreadable or an array. *)
Definition appendable (w : world) : Prop := stored_entries (json_file w) <> None.

(** The row of the event [ev] logged at the clock [ts]. *)
Definition event_row (ts : string) (ev : event) : row :=
  Row ts (fst (fst (adapt ev))) (snd (fst (adapt ev))) (compact (snd (adapt ev))).

(** The rows of the events [evs], logged by the calls number [n] onwards. *)
Fixpoint session_rows (env : environment) (n : nat) (evs : list event) : list row :=
  match evs with
  | [] => []
  | ev :: rest => event_row (utcnow env n) ev :: session_rows env (S n) rest
  end.

(** The payload of every event of the list encodes. *)
Definition payloads_encode (evs : list event) : Prop :=
  Forall (fun ev => encodable (snd (adapt ev))) evs.

(** ** The shape of one turn of the loop

    [tried t failure]: [t] is what the [try] block does, and [failure] the
    exception it ends with, if any: either [ib.connect] raises, or the
    session opens, the handlers log what they log, and [ib.run()] comes
    back, normally or with an exception. *)
Inductive tried : list effect -> option exn -> Prop :=
| connect_failed e : tried [Connect (Some e)] (Some e)
| session_ran s failure :
    Forall session_effect s ->
    tried (Connect None :: Print "[INFO] Connected and monitoring started."
             :: s ++ [Run failure])
          failure.

(** [recovered failure t alive]: [t] is what the [except] block does about
    [failure], and [alive] whether the loop goes on. Without a failure the
    block does not run. With one, the Error row is committed, with the
    failure's text in its description and the empty payload; then either the
    sink completes (document, notification) and the supervisor sleeps ten
    seconds, or the sink raises and the exception leaves the loop. *)
Inductive recovered : option exn -> list effect -> bool -> Prop :=
| nothing_to_recover : recovered None [] true
| error_logged e ts text sends :
    notifies sends ->
    recovered (Some e)
      (DbInsert (error_row ts e) :: FileWrite text :: sends ++ [Sleep 10]) true
| error_log_failed e ts :
    recovered (Some e) [DbInsert (error_row ts e)] false.

(** [turn t alive]: [t] is one turn of [while True]. *)
Inductive turn : list effect -> bool -> Prop :=
| waited : turn [Poll false; Sleep 5] true
| attempted t failure r alive :
    tried t failure -> recovered failure r alive ->
    turn (Poll true :: Print "[INFO] TWS detected. Connecting..." :: t ++ r) alive.

(** [turns n ts alive]: [ts] are the first [n] turns of the loop, or fewer
    when an exception left it ([alive] is then [false]). *)
Inductive turns : nat -> list (list effect) -> bool -> Prop :=
| no_turn : turns 0 [] true
| last_turn n t : turn t false -> turns (S n) [t] false
| next_turn n t ts alive : turn t true -> turns n ts alive -> turns (S n) (t :: ts) alive.

(** ** The rows a run should leave

    One row per event delivered and one Error row per exception caught, in
    the order they happen. [p], [k] and [c] number the poll, the connection
    attempt and the call of [log_event] that come next. *)
Definition ready_at (env : environment) (p : nat) : bool :=
  is_tws_running (TWS_PROCESS_NAME env) (process_iter env p).

Definition turn_rows (env : environment) (p k c : nat) : list row :=
  if ready_at env p then
    match ib_connect env k with
    | Some e => [error_row (utcnow env c) e]
    | None =>
        session_rows env c (fst (ib_session env k)) ++
        match snd (ib_session env k) with
        | Some e => [error_row (utcnow env (c + List.length (fst (ib_session env k)))) e]
        | None => []
        end
    end
  else [].

Fixpoint expected_rows (env : environment) (n p k c : nat) : list row :=
  match n with
  | O => []
  | S n' =>
      turn_rows env p k c ++
      expected_rows env n' (S p) (if ready_at env p then S k else k)
        (c + List.length (turn_rows env p k c))
  end.

(** Every session among the attempts [k], [k+1], ... delivers only events
    whose payload encodes. *)
Definition sessions_encode (env : environment) : Prop :=
  forall k, payloads_encode (fst (ib_session env k)).

(* ================================================================== *)
(** * Surroundings for the examples *)

(** Before the first run: no rows, no document, nothing done yet. *)
Definition fresh : world := World [] None [] 0 0 0.

(** The clock of the examples shows the number of the call. *)
Definition example_clock (n : nat) : string :=
  "2025-01-01T00:00:0" ++ int_text (Z.of_nat n) ++ "+00:00".

(** Quiet surroundings: no process, a bot that delivers, connections that
    open and sessions without events that end normally. *)
Definition quiet : environment :=
  Environment "tws.exe" example_clock (fun _ _ => None) (fun _ => [])
    (fun _ => None) (fun _ => ([], None)) false.


(** A fill as an ordinary Python object has it: the execution it carries
    is an attribute, so [__dict__] holds the [Execution] object itself. *)
Definition fill_object : event :=
  ExecDetailsEvent (SStr "BUY") (SInt 100) (SFloat "50.25")
    [("execution", PObject "Execution"); ("time", PStr "2025-01-01 00:00:00")].

(** A fill whose [__dict__] holds nothing but JSON values. *)
Definition fill_flat : event :=
  ExecDetailsEvent (SStr "BUY") (SInt 100) (SFloat "50.25")
    [("orderId", PInt 7); ("side", PStr "BUY"); ("shares", PInt 100);
     ("price", PFloat "50.25")].

(** The terminal comes and goes: polls 0 and 2 do not see it, polls 1 and
    3 do. The first connection is refused; the second opens a session that
    delivers one fill and ends normally. *)
Definition toggling (fill : event) (escape : bool) : environment :=
  Environment "tws.exe" example_clock (fun _ _ => None)
    (fun p => if Nat.odd p then [Proc None; Proc (Some "TWS.EXE")]
              else [Proc (Some "explorer.exe")])
    (fun k => match k with
              | O => Some (Exn "ConnectionRefusedError" "refused")
              | _ => None
              end)
    (fun _ => ([fill], None))
    escape.

(** The scenario of the specification: three polls without the terminal,
    then it is there; the first connection is refused, the second opens a
    session that delivers one fill. *)
Definition scenario (fill : event) (escape : bool) : environment :=
  Environment "tws.exe" example_clock (fun _ _ => None)
    (fun p => if Nat.ltb p 3 then [Proc (Some "explorer.exe")]
              else [Proc (Some "tws.exe")])
    (fun k => match k with
              | O => Some (Exn "ConnectionRefusedError" "refused")
              | _ => None
              end)
    (fun _ => ([fill], None))
    escape.

(** A document that holds JSON, but no array. *)
Definition not_an_array : world := World [] (Some "{}") [] 0 0 0.


(** The terminal is there, and every connection is refused. *)
Definition refusing : environment :=
  Environment "tws.exe" example_clock (fun _ _ => None)
    (fun _ => [Proc (Some "tws.exe")])
    (fun _ => Some (Exn "ConnectionRefusedError" "refused"))
    (fun _ => ([], None))
    false.

(* ================================================================== *)
(** * Theorems: text *)

Lemma lower_app s t : lower (s ++ t) = lower s ++ lower t.
Proof. induction s as [|c s IH]; simpl; [reflexivity | now rewrite IH]. Qed.

Lemma same_letters_lower s t : same_letters s t <-> lower s = lower t.
Proof.
  split.
  - induction 1; simpl; congruence.
  - revert t; induction s as [|a s IH]; intros [|b t] H; simpl in H;
      try discriminate; constructor; [congruence | apply IH; congruence].
Qed.

Lemma lower_split s x y :
  lower s = x ++ y -> exists s1 s2, s = s1 ++ s2 /\ lower s1 = x /\ lower s2 = y.
Proof.
  revert s; induction x as [|c x IH]; intros s H; simpl in H.
  - exists "", s; auto.
  - destruct s as [|a s]; simpl in H; [discriminate|].
    injection H as Hc Hs. destruct (IH _ Hs) as (s1 & s2 & -> & H1 & H2).
    exists (String a s1), s2; simpl; repeat split; congruence.
Qed.

Lemma prefix_app p s : prefix p s = true <-> exists post, s = p ++ post.
Proof.
  revert s; induction p as [|c p IH]; intros s.
  - split; [exists s; reflexivity | destruct s; reflexivity].
  - destruct s as [|a s]; simpl;
      [split; [discriminate | intros [? ?]; discriminate]|].
    destruct (ascii_dec c a) as [->|Hne].
    + rewrite IH; split; intros [post H]; exists post; simpl; congruence.
    + split; [discriminate | intros [post H]; simpl in H; congruence].
Qed.

Lemma str_in_unfold needle hay :
  str_in needle hay =
  if prefix needle hay then true
  else match hay with EmptyString => false | String _ t => str_in needle t end.
Proof. destruct hay; reflexivity. Qed.

Lemma str_in_app needle hay :
  str_in needle hay = true <-> exists pre post, hay = pre ++ needle ++ post.
Proof.
  induction hay as [|a hay IH]; rewrite str_in_unfold.
  - destruct (prefix needle "") eqn:Hp.
    + split; [intros _ | reflexivity].
      apply prefix_app in Hp as [post H]; exists "", post; exact H.
    + split; [discriminate|].
      intros (pre & post & H). destruct pre; simpl in H; [|discriminate].
      assert (prefix needle "" = true) by (apply prefix_app; eauto). congruence.
  - destruct (prefix needle (String a hay)) eqn:Hp.
    + split; [intros _ | reflexivity].
      apply prefix_app in Hp as [post H]; exists "", post; exact H.
    + rewrite IH; split; intros (pre & post & H).
      * exists (String a pre), post; simpl; congruence.
      * destruct pre as [|b pre]; simpl in H.
        -- assert (prefix needle (String a hay) = true) by (apply prefix_app; eauto).
           congruence.
        -- injection H as _ H; eauto.
Qed.

(** [needle.lower() in hay.lower()] is the case-insensitive substring test. *)
Lemma str_in_lower needle hay :
  str_in (lower needle) (lower hay) = true <-> ci_substring needle hay.
Proof.
  rewrite str_in_app; unfold ci_substring; split.
  - intros (pre & post & H).
    apply lower_split in H as (s1 & s23 & -> & _ & H).
    apply lower_split in H as (s2 & s3 & -> & H & _).
    exists s1, s2, s3; split; [reflexivity | now apply same_letters_lower].
  - intros (pre & mid & post & -> & H). apply same_letters_lower in H.
    exists (lower pre), (lower post). now rewrite !lower_app, H.
Qed.

Lemma truthy_iff s : truthy s = true <-> s <> "".
Proof. destruct s; simpl; split; congruence. Qed.

(* ================================================================== *)
(** * Theorems: readiness poller *)

Lemma proc_matches_iff name p :
  proc_matches name p = true <->
  exists n, named p n /\ ci_substring name n.
Proof.
  unfold proc_matches, named. destruct (info_name p) as [n|].
  - rewrite andb_true_iff, truthy_iff, str_in_lower. split.
    + intros [? ?]; exists n; auto.
    + intros (n' & [[= <-] ?] & ?); auto.
  - split; [discriminate | intros (? & [? ?] & _); discriminate].
Qed.

Lemma is_tws_running_exists name procs :
  is_tws_running name procs = true <->
  exists p, In p procs /\ proc_matches name p = true.
Proof.
  induction procs as [|p procs IH]; simpl.
  - split; [discriminate | intros (? & [] & _)].
  - destruct (proc_matches name p) eqn:Hp.
    + split; eauto.
    + rewrite IH; split; intros (q & Hq & Hm); eauto.
      destruct Hq as [<-|Hq]; [congruence | eauto].
Qed.

(** C7 (as the code has it). [is_tws_running] is a total function of the
    configured name and the process list, so it cannot raise and changes
    nothing. It answers [true] exactly when some process has a readable,
    non-empty name that contains the configured name as a case-insensitive
    substring, and [false] exactly when no process does. *)
Theorem is_tws_running_iff_named_match (name : string) (procs : list proc) :
  (is_tws_running name procs = true <->
   exists p n, In p procs /\ named p n /\ ci_substring name n) /\
  (is_tws_running name procs = false <->
   forall p n, In p procs -> named p n -> ~ ci_substring name n).
Proof.
  assert (E : is_tws_running name procs = true <->
              exists p n, In p procs /\ named p n /\ ci_substring name n).
  { rewrite is_tws_running_exists. split.
    - intros (p & Hin & Hm). apply proc_matches_iff in Hm as (n & ? & ?).
      exists p, n; auto.
    - intros (p & n & Hin & Hn & Hs). exists p; split; [assumption|].
      apply proc_matches_iff; eauto. }
  split; [exact E|].
  destruct (is_tws_running name procs).
  - split; [discriminate|]. intros H. exfalso.
    destruct (proj1 E eq_refl) as (p & n & Hin & Hn & Hs). exact (H p n Hin Hn Hs).
  - split; [|reflexivity]. intros _ p n Hin Hn Hs.
    assert (false = true) by (apply E; eauto). discriminate.
Qed.

(** C7, the claim as stated fails: with the empty configured name, a process
    whose name is the empty string contains the configured name as a
    substring, yet the guard [proc.info['name'] and ...] skips it. *)
Lemma is_tws_running_skips_empty_name :
  (exists p n, In p [Proc (Some "")] /\ info_name p = Some n /\ ci_substring "" n) /\
  is_tws_running "" [Proc (Some "")] = false.
Proof.
  split; [|reflexivity].
  exists (Proc (Some "")), ""; repeat split; [now left|].
  exists "", "", ""; split; [reflexivity | constructor].
Qed.

Lemma ci_substring_empty n : ci_substring "" n.
Proof. exists "", "", n; split; [reflexivity | constructor]. Qed.

Lemma is_tws_running_app name pre post :
  is_tws_running name (pre ++ post) =
  is_tws_running name pre || is_tws_running name post.
Proof.
  induction pre as [|p pre IH]; simpl; [reflexivity|].
  destruct (proc_matches name p); [reflexivity | exact IH].
Qed.

(** C10. With the empty configured name every process with a readable,
    non-empty name matches; and a process whose name is absent or empty can
    be removed from the list without changing the answer, whatever the
    configured name. *)
Theorem is_tws_running_empty_config :
  (forall procs p n, In p procs -> named p n -> is_tws_running "" procs = true) /\
  (forall name pre p post,
      info_name p = None \/ info_name p = Some "" ->
      is_tws_running name (pre ++ p :: post) = is_tws_running name (pre ++ post)).
Proof.
  split.
  - intros procs p n Hin Hn.
    apply is_tws_running_exists. exists p. split; [assumption|].
    apply proc_matches_iff. exists n. split; [assumption | apply ci_substring_empty].
  - intros name pre p post Hp.
    rewrite !is_tws_running_app. f_equal. simpl.
    unfold proc_matches. destruct Hp as [-> | ->]; reflexivity.
Qed.

Lemma is_tws_running_empty_config_witness :
  is_tws_running "" [Proc None; Proc (Some "javaw.exe")] = true /\
  is_tws_running "tws.exe" ([Proc (Some "TWS.EXE")] ++ Proc (Some "") :: []) =
  is_tws_running "tws.exe" ([Proc (Some "TWS.EXE")] ++ []).
Proof.
  split.
  - apply (proj1 is_tws_running_empty_config _ (Proc (Some "javaw.exe")) "javaw.exe").
    + simpl; auto.
    + split; [reflexivity | discriminate].
  - apply (proj2 is_tws_running_empty_config). right; reflexivity.
Defined.

(* ================================================================== *)
(** * Theorems: the [json] codec *)

Lemma sapp_assoc (a b c : string) : (a ++ b) ++ c = a ++ (b ++ c).
Proof. induction a as [|x a IH]; simpl; [reflexivity | now rewrite IH]. Qed.

Lemma sapp_nil_r (a : string) : a ++ "" = a.
Proof. induction a as [|x a IH]; simpl; [reflexivity | now rewrite IH]. Qed.

Lemma slength_app (a b : string) :
  String.length (a ++ b) = String.length a + String.length b.
Proof. induction a as [|x a IH]; simpl; [reflexivity | now rewrite IH]. Qed.

(** ** Every token takes at least one character *)

Lemma skip_ws_length s : String.length (skip_ws s) <= String.length s.
Proof.
  induction s as [|c s IH]; simpl; [lia|].
  destruct (is_ws c); simpl; lia.
Qed.

Lemma span_digits_length s :
  String.length (snd (span_digits s)) <= String.length s.
Proof.
  induction s as [|c s IH]; simpl; [lia|].
  destruct (is_digit c); [|simpl; lia].
  destruct (span_digits s) as [d r]; simpl in *; lia.
Qed.

Lemma scanstring_length s x r :
  scanstring s = Some (x, r) -> String.length r < String.length s.
Proof.
  remember (String.length s) as n eqn:Hn.
  revert s x r Hn. induction n as [n IH] using lt_wf_ind. intros s x r -> H.
  assert (IH' : forall t x' r', String.length t < String.length s ->
            scanstring t = Some (x', r') -> String.length r' < String.length t)
    by (intros t x' r' Hlt Ht; exact (IH _ Hlt t x' r' eq_refl Ht)).
  clear IH. destruct s as [|c t]; [discriminate|]. simpl in H, IH'.
  destruct (c =? dquote)%char.
  { injection H as _ <-. simpl; lia. }
  destruct (c =? "\")%char.
  - destruct t as [|e u]; [discriminate|].
    destruct (e =? "u")%char.
    + destruct u as [|h1 [|h2 [|h3 [|h4 v]]]]; try discriminate.
      destruct (hex4 h1 h2 h3 h4) as [k|]; [|discriminate].
      destruct (k <? 256)%N; [|discriminate].
      destruct (scanstring v) as [[x' r']|] eqn:Hv; [|discriminate].
      injection H as _ <-. apply IH' in Hv; simpl in *; lia.
    + destruct (unescape e); [|discriminate].
      destruct (scanstring u) as [[x' r']|] eqn:Hu; [|discriminate].
      injection H as _ <-. apply IH' in Hu; simpl in *; lia.
  - destruct (N_of_ascii c <? 32)%N; [discriminate|].
    destruct (scanstring t) as [[x' r']|] eqn:Ht; [|discriminate].
    injection H as _ <-. apply IH' in Ht; simpl in *; lia.
Qed.

Lemma strip_prefix_length p s r :
  strip_prefix p s = Some r -> String.length r + String.length p = String.length s.
Proof.
  revert s; induction p as [|a p IH]; intros s H; simpl in H.
  - injection H as <-. simpl; lia.
  - destruct s as [|b s]; [discriminate|].
    destruct (a =? b)%char; [|discriminate].
    apply IH in H. simpl; lia.
Qed.

Lemma lex_sign_length signs s :
  String.length (snd (lex_sign signs s)) <= String.length s.
Proof.
  destruct s as [|c t]; simpl; [lia|].
  destruct (char_in c signs); simpl; lia.
Qed.

Lemma lex_int_digits_length s d r :
  lex_int_digits s = Some (d, r) -> String.length r < String.length s.
Proof.
  destruct s as [|c t]; simpl; [discriminate|].
  destruct (c =? "0")%char; [intros [= _ <-]; lia|].
  destruct (is_digit c); [|discriminate].
  pose proof (span_digits_length t) as Hs.
  destruct (span_digits t) as [d' r']; simpl in Hs. intros [= _ <-]; lia.
Qed.

Lemma lex_int_part_length s i r :
  lex_int_part s = Some (i, r) -> String.length r < String.length s.
Proof.
  unfold lex_int_part. pose proof (lex_sign_length "-" s) as Hs.
  destruct (lex_sign "-" s) as [sign s1]; simpl in Hs.
  destruct (lex_int_digits s1) as [[d r']|] eqn:Hd; [|discriminate].
  intros [= _ <-]. apply lex_int_digits_length in Hd. lia.
Qed.

Lemma lex_frac_length s : String.length (snd (lex_frac s)) <= String.length s.
Proof.
  destruct s as [|c t]; simpl; [lia|].
  destruct (c =? ".")%char; [|simpl; lia].
  pose proof (span_digits_length t) as Hs.
  destruct (span_digits t) as [[|x d] r]; simpl in *; lia.
Qed.

Lemma lex_exp_length s : String.length (snd (lex_exp s)) <= String.length s.
Proof.
  destruct s as [|c t]; simpl; [lia|].
  destruct ((c =? "e") || (c =? "E"))%char; [|simpl; lia].
  pose proof (lex_sign_length "+-" t) as Hs.
  destruct (lex_sign "+-" t) as [sign t1]; simpl in Hs.
  pose proof (span_digits_length t1) as Hd.
  destruct (span_digits t1) as [[|x d] r]; simpl in *; lia.
Qed.

Lemma lex_number_length s t r :
  lex_number s = Some (t, r) -> String.length r < String.length s.
Proof.
  unfold lex_number.
  destruct (lex_int_part s) as [[i s1]|] eqn:Hi; [|discriminate].
  apply lex_int_part_length in Hi.
  pose proof (lex_frac_length s1) as Hf. destruct (lex_frac s1) as [f s2].
  pose proof (lex_exp_length s2) as He. destruct (lex_exp s2) as [e s3].
  simpl in Hf, He. intros H.
  assert (r = s3); [|subst; lia].
  destruct f, e; try (injection H as _ <-; reflexivity).
  destruct (NilEmpty.int_of_string i); [injection H as _ <-; reflexivity | discriminate].
Qed.

Lemma lex_word_length words s t r :
  Forall (fun w => fst w <> "") words ->
  lex_word words s = Some (t, r) -> String.length r < String.length s.
Proof.
  induction 1 as [|[p t'] words Hp _ IH]; simpl; [discriminate|].
  destruct (strip_prefix p s) as [r'|] eqn:Hs; [|exact IH].
  intros [= _ <-]. apply strip_prefix_length in Hs.
  destruct p; [now contradiction Hp | simpl in Hs; lia].
Qed.

Lemma next_token_length s t r :
  next_token s = Some (t, r) -> String.length r < String.length s.
Proof.
  destruct s as [|c s']; [discriminate|]. unfold next_token.
  repeat match goal with
         | |- (if ?b then Some (_, s') else _) = _ -> _ =>
             destruct b; [intros [= _ <-]; simpl; lia|]
         end.
  destruct (c =? dquote)%char.
  - destruct (scanstring s') as [[x r']|] eqn:Hs; [|discriminate].
    intros [= _ <-]. apply scanstring_length in Hs. simpl; lia.
  - destruct (lex_word _ (String c s')) as [res|] eqn:Hw.
    + intros [= ->]. apply lex_word_length in Hw; [exact Hw|].
      repeat constructor; discriminate.
    + destruct (lex_number (String c s')) as [res|] eqn:Hn.
      * intros [= ->]. now apply lex_number_length in Hn.
      * intros Hw'. apply lex_word_length in Hw'; [exact Hw'|].
        repeat constructor; discriminate.
Qed.

Lemma lex_S n s :
  lex (S n) s =
  match skip_ws s with
  | EmptyString => Some []
  | String c s' =>
      match next_token (String c s') with
      | Some (t, r) => option_map (cons t) (lex n r)
      | None => None
      end
  end.
Proof. simpl. destruct (skip_ws s); reflexivity. Qed.

(** The fuel of [tokenize] is enough: more changes nothing. *)
Lemma lex_fuel n m s :
  String.length s < n -> String.length s < m -> lex n s = lex m s.
Proof.
  revert m s; induction n as [|n IH]; intros m s Hn Hm; [lia|].
  destruct m as [|m]; [lia|]. rewrite !lex_S.
  pose proof (skip_ws_length s) as Hw.
  destruct (skip_ws s) as [|c s'] eqn:Hs; [reflexivity|].
  destruct (next_token (String c s')) as [[t r]|] eqn:Ht; [|reflexivity].
  apply next_token_length in Ht. f_equal. apply IH; lia.
Qed.

Lemma tokenize_ws c s : is_ws c = true -> tokenize (String c s) = tokenize s.
Proof.
  intros Hc. unfold tokenize. rewrite !lex_S. simpl skip_ws. rewrite Hc.
  pose proof (skip_ws_length s) as Hw.
  destruct (skip_ws s) as [|c' s'] eqn:Hs; [reflexivity|].
  destruct (next_token (String c' s')) as [[t r]|] eqn:Ht; [|reflexivity].
  apply next_token_length in Ht. f_equal. apply lex_fuel; simpl in *; lia.
Qed.

Lemma tokenize_nil : tokenize "" = Some [].
Proof. reflexivity. Qed.

Lemma tokenize_token c s t r :
  is_ws c = false -> next_token (String c s) = Some (t, r) ->
  tokenize (String c s) = option_map (cons t) (tokenize r).
Proof.
  intros Hc Ht. unfold tokenize at 1. rewrite lex_S. simpl skip_ws.
  rewrite Hc, Ht. f_equal.
  apply next_token_length in Ht. apply lex_fuel; simpl in *; lia.
Qed.

(** ** The text of each token reads back as that token *)

Ltac ascii_cases c := destruct c as [[|] [|] [|] [|] [|] [|] [|] [|]].

Lemma scanstring_escape_char c tail :
  scanstring (escape_char c ++ tail) = option_map (prepend c) (scanstring tail).
Proof. ascii_cases c; reflexivity. Qed.

Lemma scanstring_escape s rest :
  scanstring (escape s ++ String dquote rest) = Some (s, rest).
Proof.
  induction s as [|c s IH]; simpl; [reflexivity|].
  rewrite sapp_assoc, scanstring_escape_char, IH. reflexivity.
Qed.

Lemma next_token_str_text s rest :
  next_token (str_text s ++ rest) = Some (TString s, rest).
Proof.
  unfold str_text, quoted. simpl. rewrite sapp_assoc. simpl.
  now rewrite scanstring_escape.
Qed.

Lemma number_stops_inv c t :
  number_stops (String c t) = true ->
  is_digit c = false /\ (c =? ".")%char = false /\ (c =? "e")%char = false /\
  (c =? "E")%char = false /\ (c =? "+")%char = false /\ (c =? "-")%char = false.
Proof.
  simpl. rewrite negb_true_iff, !orb_false_iff. tauto.
Qed.

Lemma span_digits_app s rest d r :
  span_digits s = (d, r) -> number_stops rest = true ->
  span_digits (s ++ rest) = (d, r ++ rest).
Proof.
  revert d r; induction s as [|c s IH]; intros d r H Hrest; simpl in *.
  - injection H as <- <-. destruct rest as [|c t]; [reflexivity|].
    apply number_stops_inv in Hrest as (Hd & _). simpl. now rewrite Hd.
  - destruct (is_digit c).
    + destruct (span_digits s) as [d' r']. injection H as <- <-.
      now rewrite (IH _ _ eq_refl Hrest).
    + injection H as <- <-. reflexivity.
Qed.

Lemma span_digits_text s d r : span_digits s = (d, r) -> s = d ++ r.
Proof.
  revert d r; induction s as [|c s IH]; intros d r H; simpl in H.
  - now injection H as <- <-.
  - destruct (is_digit c).
    + destruct (span_digits s) as [d' r']. injection H as <- <-.
      simpl. now rewrite <- (IH _ _ eq_refl).
    + now injection H as <- <-.
Qed.

Lemma lex_sign_app signs s rest :
  (s = "" -> lex_sign signs rest = ("", rest)) ->
  lex_sign signs (s ++ rest) = (fst (lex_sign signs s), snd (lex_sign signs s) ++ rest).
Proof.
  destruct s as [|c t]; simpl; [intros H; now rewrite H|].
  intros _. destruct (char_in c signs); reflexivity.
Qed.

Lemma lex_sign_stops signs rest :
  signs = "-" \/ signs = "+-" ->
  number_stops rest = true -> lex_sign signs rest = ("", rest).
Proof.
  intros Hs Hrest. destruct rest as [|c t]; [reflexivity|].
  apply number_stops_inv in Hrest as (_ & _ & _ & _ & Hp & Hm).
  unfold lex_sign.
  assert (E : char_in c signs = false); [|now rewrite E].
  rewrite Ascii.eqb_sym in Hp, Hm.
  destruct Hs as [-> | ->]; cbn [char_in]; rewrite ?Hp, ?Hm; reflexivity.
Qed.

Lemma lex_int_digits_app s rest d r :
  lex_int_digits s = Some (d, r) -> number_stops rest = true ->
  lex_int_digits (s ++ rest) = Some (d, r ++ rest).
Proof.
  destruct s as [|c t]; simpl; [discriminate|]. intros H Hrest.
  destruct (c =? "0")%char; [now injection H as <- <-|].
  destruct (is_digit c); [|discriminate].
  destruct (span_digits t) as [d' r'] eqn:Hs. injection H as <- <-.
  now rewrite (span_digits_app _ _ _ _ Hs Hrest).
Qed.

Lemma lex_int_part_app s rest i r :
  lex_int_part s = Some (i, r) -> number_stops rest = true ->
  lex_int_part (s ++ rest) = Some (i, r ++ rest).
Proof.
  unfold lex_int_part. intros H Hrest.
  rewrite lex_sign_app.
  - destruct (lex_sign "-" s) as [sign s1]; simpl.
    destruct (lex_int_digits s1) as [[d r']|] eqn:Hd; [|discriminate].
    injection H as <- <-.
    now rewrite (lex_int_digits_app _ _ _ _ Hd Hrest).
  - intros ->. discriminate.
Qed.

Lemma lex_frac_app s rest :
  number_stops rest = true ->
  lex_frac (s ++ rest) = (fst (lex_frac s), snd (lex_frac s) ++ rest).
Proof.
  intros Hrest. destruct s as [|c t]; simpl.
  - destruct rest as [|c t]; [reflexivity|].
    apply number_stops_inv in Hrest as (_ & Hd & _). simpl. now rewrite Hd.
  - destruct (c =? ".")%char; [|reflexivity].
    destruct (span_digits t) as [d r] eqn:Hs.
    rewrite (span_digits_app _ _ _ _ Hs Hrest).
    destruct d; [|reflexivity]. simpl.
    apply span_digits_text in Hs. simpl in Hs. now subst.
Qed.

Lemma lex_exp_app s rest :
  number_stops rest = true ->
  lex_exp (s ++ rest) = (fst (lex_exp s), snd (lex_exp s) ++ rest).
Proof.
  intros Hrest. destruct s as [|c t]; simpl.
  - destruct rest as [|c t]; [reflexivity|].
    apply number_stops_inv in Hrest as (_ & _ & He & HE & _). simpl.
    now rewrite He, HE.
  - destruct ((c =? "e") || (c =? "E"))%char; [|reflexivity].
    rewrite lex_sign_app by (intros _; apply lex_sign_stops; auto).
    destruct (lex_sign "+-" t) as [sign t1]; simpl.
    destruct (span_digits t1) as [d r] eqn:Hs.
    rewrite (span_digits_app _ _ _ _ Hs Hrest).
    destruct d; reflexivity.
Qed.

(** A number followed by something that cannot continue it reads the same. *)
Lemma lex_number_app s rest t r :
  lex_number s = Some (t, r) -> number_stops rest = true ->
  lex_number (s ++ rest) = Some (t, r ++ rest).
Proof.
  unfold lex_number. intros H Hrest.
  destruct (lex_int_part s) as [[i s1]|] eqn:Hi; [|discriminate].
  rewrite (lex_int_part_app _ _ _ _ Hi Hrest).
  rewrite (lex_frac_app s1 rest Hrest). destruct (lex_frac s1) as [f s2]; simpl.
  rewrite (lex_exp_app s2 rest Hrest). destruct (lex_exp s2) as [e s3]; simpl.
  destruct f, e; try (now injection H as <- <-).
  destruct (NilEmpty.int_of_string i); [now injection H as <- <- | discriminate].
Qed.

(** A number is not mistaken for another token. *)
Lemma next_token_number s res :
  lex_number s = Some res -> next_token s = Some res.
Proof.
  destruct s as [|c t]; [discriminate|].
  intros H. unfold next_token.
  assert (Hc : c = "-"%char \/ is_digit c = true).
  { unfold lex_number, lex_int_part, lex_sign in H.
    destruct (char_in c "-") eqn:Hm.
    - left. cbn [char_in] in Hm.
      destruct (Ascii.eqb_spec "-"%char c); [auto | discriminate].
    - right. simpl in H. destruct (c =? "0")%char eqn:H0.
      + apply Ascii.eqb_eq in H0; subst; reflexivity.
      + destruct (is_digit c); [reflexivity | discriminate]. }
  assert (Hp : (c =? "{")%char = false /\ (c =? "}")%char = false /\
               (c =? "[")%char = false /\ (c =? "]")%char = false /\
               (c =? ",")%char = false /\ (c =? ":")%char = false /\
               (c =? dquote)%char = false /\
               ("n" =? c)%char = false /\ ("t" =? c)%char = false /\
               ("f" =? c)%char = false).
  { destruct Hc as [-> | Hc]; [repeat split; reflexivity|].
    ascii_cases c; try discriminate Hc; repeat split; reflexivity. }
  destruct Hp as (-> & -> & -> & -> & -> & -> & -> & Hn & Ht & Hf).
  unfold lex_word at 1, strip_prefix. rewrite Hn, Ht, Hf, H. reflexivity.
Qed.

Lemma span_digits_uint u :
  span_digits (NilEmpty.string_of_uint u) = (NilEmpty.string_of_uint u, "").
Proof. induction u; simpl; rewrite ?IHu; reflexivity. Qed.

(** The decimal digits of a positive number do not start with [0]. *)
Lemma to_uint_head p :
  Pos.to_uint p <> Decimal.Nil /\ forall u, Pos.to_uint p <> Decimal.D0 u.
Proof.
  split; [apply DecimalPos.Unsigned.to_uint_nonnil|].
  intros u Hu.
  assert (Hn : Decimal.unorm (Pos.to_uint p) = Pos.to_uint p).
  { rewrite <- DecimalPos.Unsigned.to_of, DecimalPos.Unsigned.of_to. reflexivity. }
  rewrite Hu in Hn. rewrite DecimalFacts.unorm_D0 in Hn.
  unfold Decimal.unorm in Hn.
  destruct (Decimal.nzhead u) eqn:Hz; try discriminate Hn.
  - injection Hn as <-.
    apply (DecimalPos.Unsigned.to_uint_nonzero p). exact Hu.
  - apply (DecimalFacts.nzhead_nonzero u u). congruence.
Qed.

Lemma lex_int_digits_uint u :
  u <> Decimal.Nil -> (forall u', u <> Decimal.D0 u') ->
  lex_int_digits (NilEmpty.string_of_uint u) = Some (NilEmpty.string_of_uint u, "") /\
  lex_sign "-" (NilEmpty.string_of_uint u) = ("", NilEmpty.string_of_uint u).
Proof.
  intros Hnil H0.
  destruct u; try (now contradiction Hnil); try (now contradiction (H0 u));
    simpl; rewrite span_digits_uint; split; reflexivity.
Qed.

Lemma lex_number_int z : lex_number (int_text z) = Some (TInt z, "").
Proof.
  unfold int_text. destruct z as [|p|p]; [reflexivity| |].
  - destruct (to_uint_head p) as [Hnil H0].
    destruct (lex_int_digits_uint _ Hnil H0) as [Hd Hs].
    unfold lex_number, lex_int_part. simpl Z.to_int. simpl NilEmpty.string_of_int.
    rewrite Hs, Hd. simpl.
    change (NilEmpty.string_of_uint (Pos.to_uint p))
      with (NilEmpty.string_of_int (Decimal.Pos (Pos.to_uint p))).
    rewrite NilEmpty.isi.
    change (Decimal.Pos (Pos.to_uint p)) with (Z.to_int (Zpos p)).
    now rewrite DecimalZ.of_to.
  - destruct (to_uint_head p) as [Hnil H0].
    destruct (lex_int_digits_uint _ Hnil H0) as [Hd Hs].
    unfold lex_number, lex_int_part. simpl Z.to_int. simpl NilEmpty.string_of_int.
    cbn [lex_sign char_in]. simpl (("-" =? "-")%char || false). cbv iota.
    rewrite Hd. simpl lex_frac. simpl lex_exp. cbv iota beta.
    change ("-" ++ NilEmpty.string_of_uint (Pos.to_uint p))
      with (NilEmpty.string_of_int (Decimal.Neg (Pos.to_uint p))).
    rewrite NilEmpty.isi.
    change (Decimal.Neg (Pos.to_uint p)) with (Z.to_int (Zneg p)).
    now rewrite DecimalZ.of_to.
Qed.

Lemma next_token_int z rest :
  number_stops rest = true ->
  next_token (int_text z ++ rest) = Some (TInt z, rest).
Proof.
  intros Hrest. apply next_token_number.
  exact (lex_number_app _ _ _ _ (lex_number_int z) Hrest).
Qed.

Lemma float_repr_cases r :
  float_repr r = true ->
  r = "nan" \/ r = "inf" \/ r = "-inf" \/
  (float_text r = r /\ lex_number r = Some (TFloat r, "")).
Proof.
  unfold float_repr, float_text.
  destruct (String.eqb_spec r "nan") as [->|_]; [auto|].
  destruct (String.eqb_spec r "inf") as [->|_]; [auto|].
  destruct (String.eqb_spec r "-inf") as [->|_]; [auto|].
  simpl. destruct (lex_number r) as [[[] [|]]|]; try discriminate.
  intros H. apply String.eqb_eq in H. subst. auto.
Qed.

Lemma next_token_float r rest :
  float_repr r = true -> number_stops rest = true ->
  next_token (float_text r ++ rest) = Some (TFloat r, rest).
Proof.
  intros Hr Hrest.
  destruct (float_repr_cases r Hr) as [-> | [-> | [-> | [E H]]]];
    try reflexivity.
  rewrite E. apply next_token_number.
  exact (lex_number_app _ _ _ _ H Hrest).
Qed.

(** ** The encoder's text reads back as its tokens *)

Lemma delimited_stops rest : delimited rest = true -> number_stops rest = true.
Proof.
  destruct rest as [|c t]; [reflexivity|]. unfold delimited, number_stops.
  ascii_cases c; try reflexivity; discriminate.
Qed.

Lemma next_token_not_ws c t res :
  next_token (String c t) = Some res -> is_ws c = false.
Proof.
  intros H. ascii_cases c; try reflexivity; discriminate H.
Qed.

Lemma tokenize_next s t r :
  next_token s = Some (t, r) -> tokenize s = option_map (cons t) (tokenize r).
Proof.
  destruct s as [|c s']; [discriminate|]. intros H.
  apply tokenize_token; [|exact H]. eapply next_token_not_ws; eauto.
Qed.

Lemma tokenize_spaces n s : tokenize (spaces n ++ s) = tokenize s.
Proof.
  induction n as [|n IH]; simpl; [reflexivity|].
  now rewrite tokenize_ws.
Qed.

Lemma tokenize_nl d s : tokenize (nl d ++ s) = tokenize s.
Proof. unfold nl. simpl. rewrite tokenize_ws by reflexivity. apply tokenize_spaces. Qed.

Lemma option_map_app {A} (xs ys : list A) (o : option (list A)) :
  option_map (app xs) (option_map (app ys) o) = option_map (app (xs ++ ys)%list) o.
Proof. destruct o; simpl; [now rewrite app_assoc | reflexivity]. Qed.

Lemma option_map_cons {A} (x : A) (o : option (list A)) :
  option_map (cons x) o = option_map (app [x]) o.
Proof. destruct o; reflexivity. Qed.

Lemma option_map_nil {A} (o : option (list A)) : option_map (app []) o = o.
Proof. destruct o; reflexivity. Qed.

Lemma lexes_token s t :
  (forall rest, delimited rest = true -> next_token (s ++ rest) = Some (t, rest)) ->
  lexes s [t].
Proof.
  intros H rest Hrest. rewrite (tokenize_next _ _ _ (H rest Hrest)).
  apply option_map_cons.
Qed.

Lemma tokenize_comma s :
  tokenize (String "," s) = option_map (cons TComma) (tokenize s).
Proof. now apply tokenize_next. Qed.

(** Items separated by a comma and white space. *)
Lemma lexes_join (ws : string) (items : list (string * list token)) :
  (forall s, tokenize (ws ++ s) = tokenize s) ->
  Forall (fun it => lexes (fst it) (snd it)) items ->
  lexes (join ("," ++ ws) (map fst items)) (sep_concat TComma (map snd items)).
Proof.
  intros Hws. induction 1 as [|[s ts] items Hit _ IH]; intros rest Hrest.
  - simpl. now rewrite option_map_nil.
  - destruct items as [|it items].
    + simpl. apply Hit, Hrest.
    + change (join ("," ++ ws) (map fst ((s, ts) :: it :: items)))
        with (s ++ ("," ++ ws) ++ join ("," ++ ws) (map fst (it :: items))).
      change (sep_concat TComma (map snd ((s, ts) :: it :: items)))
        with (ts ++ TComma :: sep_concat TComma (map snd (it :: items)))%list.
      rewrite !sapp_assoc. simpl fst in Hit; simpl snd in Hit.
      rewrite Hit by reflexivity.
      change ("," ++ ws ++ join ("," ++ ws) (map fst (it :: items)) ++ rest)
        with (String "," (ws ++ join ("," ++ ws) (map fst (it :: items)) ++ rest)).
      rewrite tokenize_comma, Hws, (IH rest Hrest).
      rewrite option_map_cons, !option_map_app, <- app_assoc. reflexivity.
Qed.

(** Brackets around separated items, with white space [ws1] after the opening
    bracket and [ws2] before the closing one. *)
Lemma lexes_bracketed (open close : ascii) (topen tclose : token)
  (ws1 ws2 : string) (body : string) (ts : list token) :
  (forall s, next_token (String open s) = Some (topen, s)) ->
  (forall s, next_token (String close s) = Some (tclose, s)) ->
  delimited (String close "") = true ->
  (forall s, tokenize (ws1 ++ s) = tokenize s) ->
  (forall s, tokenize (ws2 ++ s) = tokenize s) ->
  (ws2 = "" \/ delimited ws2 = true /\ ws2 <> "") ->
  lexes body ts ->
  lexes (String open "" ++ ws1 ++ body ++ ws2 ++ String close "")
        (topen :: ts ++ [tclose])%list.
Proof.
  intros Hopen Hclose Hdc H1 H2 Hw2 Hbody rest Hrest.
  rewrite !sapp_assoc. simpl.
  rewrite (tokenize_next _ _ _ (Hopen _)), H1, Hbody.
  - rewrite H2, (tokenize_next _ _ _ (Hclose _)).
    rewrite !option_map_cons, !option_map_app. reflexivity.
  - destruct Hw2 as [-> | [Hd Hne]]; [exact Hdc|].
    destruct ws2; [congruence | exact Hd].
Qed.

(** Induction on a value with the hypothesis for every item of a list and
    every value of a dict. *)
Lemma pyval_nested_ind (P : pyval -> Prop) :
  P PNone -> (forall b, P (PBool b)) -> (forall z, P (PInt z)) ->
  (forall r, P (PFloat r)) -> (forall s, P (PStr s)) ->
  (forall l, Forall P l -> P (PList l)) ->
  (forall d, Forall (fun kv => P (snd kv)) d -> P (PDict d)) ->
  (forall cls, P (PObject cls)) ->
  forall v, P v.
Proof.
  intros HNone HBool HInt HFloat HStr HList HDict HObj.
  fix IH 1. intros [| b | z | r | s | l | d | cls].
  - exact HNone.
  - apply HBool.
  - apply HInt.
  - apply HFloat.
  - apply HStr.
  - apply HList. induction l as [|x l IHl]; constructor; [apply IH | exact IHl].
  - apply HDict. induction d as [|[k x] d IHd]; constructor; [apply IH | exact IHd].
  - apply HObj.
Qed.

Lemma encodable_list l :
  encodable (PList l) <-> Forall encodable l.
Proof.
  unfold encodable. induction l as [|x l IH].
  - split; [constructor | reflexivity].
  - change (first_unserializable (PList (x :: l)))
      with (match first_unserializable x with
            | Some o => Some o
            | None => first_unserializable (PList l)
            end).
    split.
    + intros H. destruct (first_unserializable x) eqn:Hx; [discriminate|].
      constructor; [exact Hx | now apply IH].
    + intros H. inversion H as [|? ? Hx Hl]; subst.
      rewrite Hx. now apply IH.
Qed.

Lemma encodable_dict d :
  encodable (PDict d) <-> Forall (fun kv => encodable (snd kv)) d.
Proof.
  unfold encodable. induction d as [|[k x] d IH].
  - split; [constructor | reflexivity].
  - change (first_unserializable (PDict ((k, x) :: d)))
      with (match first_unserializable x with
            | Some o => Some o
            | None => first_unserializable (PDict d)
            end).
    split.
    + intros H. destruct (first_unserializable x) eqn:Hx; [discriminate|].
      constructor; [exact Hx | now apply IH].
    + intros H. inversion H as [|? ? Hx Hl]; subst. simpl in Hx.
      rewrite Hx. now apply IH.
Qed.

Lemma python_value_list l :
  python_value (PList l) = true <-> Forall (fun x => python_value x = true) l.
Proof. simpl. rewrite forallb_forall, Forall_forall. reflexivity. Qed.

Lemma python_value_dict d :
  python_value (PDict d) = true <->
  distinct (map fst d) = true /\ Forall (fun kv => python_value (snd kv) = true) d.
Proof.
  simpl. rewrite andb_true_iff, forallb_forall, Forall_forall. reflexivity.
Qed.

Lemma lexes_scalar_cases :
  lexes "null" [TNull] /\ lexes "true" [TTrue] /\ lexes "false" [TFalse] /\
  (forall z, lexes (int_text z) [TInt z]) /\
  (forall r, float_repr r = true -> lexes (float_text r) [TFloat r]) /\
  (forall s, lexes (str_text s) [TString s]).
Proof.
  repeat split; intros; apply lexes_token; intros rest Hrest;
    auto using next_token_int, next_token_float, next_token_str_text, delimited_stops.
Qed.

Lemma lexes_member k s ts :
  lexes s ts -> lexes (str_text k ++ ": " ++ s) (TString k :: TColon :: ts).
Proof.
  intros H rest Hrest. rewrite !sapp_assoc.
  rewrite (tokenize_next _ _ _ (next_token_str_text k _)).
  change (": " ++ s ++ rest) with (String ":" (String " " (s ++ rest))).
  rewrite (tokenize_next (String ":" (String " " (s ++ rest))) TColon
             (String " " (s ++ rest)) eq_refl).
  rewrite tokenize_ws by reflexivity. rewrite (H rest Hrest).
  destruct (tokenize rest); reflexivity.
Qed.

Lemma lexes_empty :
  lexes "[]" [TLBrack; TRBrack] /\ lexes "{}" [TLBrace; TRBrace].
Proof.
  split; intros rest Hrest; simpl.
  - rewrite (tokenize_next (String "[" (String "]" rest)) TLBrack
               (String "]" rest) eq_refl).
    rewrite (tokenize_next (String "]" rest) TRBrack rest eq_refl).
    destruct (tokenize rest); reflexivity.
  - rewrite (tokenize_next (String "{" (String "}" rest)) TLBrace
               (String "}" rest) eq_refl).
    rewrite (tokenize_next (String "}" rest) TRBrace rest eq_refl).
    destruct (tokenize rest); reflexivity.
Qed.

(** Both layouts of an encodable value read back as its tokens. *)
Lemma lexes_value v :
  encodable v -> python_value v = true ->
  lexes (compact v) (tokens v) /\ forall depth, lexes (pretty depth v) (tokens v).
Proof.
  destruct lexes_scalar_cases as (HN & HT & HF & HI & HFl & HS).
  revert v.
  refine (pyval_nested_ind _ _ _ _ _ _ _ _ _);
    [| intros b | intros z | intros r | intros s | intros l IH | intros d IH
     | intros cls]; intros Henc Hpy.
  - split; [|intros depth]; exact HN.
  - destruct b; (split; [|intros depth]); assumption.
  - split; [|intros depth]; apply HI.
  - split; [|intros depth]; apply HFl, Hpy.
  - split; [|intros depth]; apply HS.
  - apply encodable_list in Henc. apply python_value_list in Hpy.
    assert (Hc : Forall (fun x => lexes (compact x) (tokens x)) l).
    { rewrite Forall_forall in *. intros x Hx. now apply IH; auto. }
    assert (Hp : forall depth, Forall (fun x => lexes (pretty depth x) (tokens x)) l).
    { intros depth. rewrite Forall_forall in *. intros x Hx. now apply IH; auto. }
    split.
    + pose proof (lexes_join " " (map (fun x => (compact x, tokens x)) l)) as HJ.
      rewrite !map_map in HJ. simpl in HJ.
      apply (lexes_bracketed "[" "]" TLBrack TRBrack "" "" _ _); auto.
      apply HJ; [intros s; now apply tokenize_ws|].
      rewrite Forall_map. exact Hc.
    + intros depth. destruct l as [|x l]; [apply lexes_empty|].
      pose proof (lexes_join (nl (S depth))
                    (map (fun x => (pretty (S depth) x, tokens x)) (x :: l))) as HJ.
      rewrite !map_map in HJ. cbn [fst snd] in HJ.
      apply (lexes_bracketed "[" "]" TLBrack TRBrack (nl (S depth)) (nl depth) _ _);
        auto using tokenize_nl.
      * right; split; [reflexivity | discriminate].
      * apply HJ; [apply tokenize_nl|]. rewrite Forall_map. apply Hp.
  - apply encodable_dict in Henc. apply python_value_dict in Hpy as [_ Hpy].
    assert (Hc : Forall (fun kv => lexes (str_text (fst kv) ++ ": " ++ compact (snd kv))
                                     (TString (fst kv) :: TColon :: tokens (snd kv))) d).
    { rewrite Forall_forall in *. intros kv Hkv. apply lexes_member.
      now apply IH; auto. }
    assert (Hp : forall depth,
               Forall (fun kv => lexes (str_text (fst kv) ++ ": " ++ pretty depth (snd kv))
                                   (TString (fst kv) :: TColon :: tokens (snd kv))) d).
    { intros depth. rewrite Forall_forall in *. intros kv Hkv. apply lexes_member.
      now apply IH; auto. }
    split.
    + pose proof (lexes_join " "
                    (map (fun kv => (str_text (fst kv) ++ ": " ++ compact (snd kv),
                                     TString (fst kv) :: TColon :: tokens (snd kv))) d))
        as HJ.
      rewrite !map_map in HJ. cbn [fst snd] in HJ.
      apply (lexes_bracketed "{" "}" TLBrace TRBrace "" "" _ _); auto.
      apply HJ; [intros s; now apply tokenize_ws|].
      rewrite Forall_map. exact Hc.
    + intros depth. destruct d as [|kv d]; [apply lexes_empty|].
      pose proof (lexes_join (nl (S depth))
                    (map (fun kv => (str_text (fst kv) ++ ": " ++ pretty (S depth) (snd kv),
                                     TString (fst kv) :: TColon :: tokens (snd kv)))
                         (kv :: d))) as HJ.
      rewrite !map_map in HJ. cbn [fst snd] in HJ.
      apply (lexes_bracketed "{" "}" TLBrace TRBrace (nl (S depth)) (nl depth) _ _);
        auto using tokenize_nl.
      * right; split; [reflexivity | discriminate].
      * apply HJ; [apply tokenize_nl|]. rewrite Forall_map. apply Hp.
  - discriminate Henc.
Qed.

(** ** The tokens of a value parse back to it *)

Lemma parse_elements_S n ts acc :
  parse_elements (S n) ts acc =
  match parse_value n ts with
  | Some (v, TComma :: r) => parse_elements n r (acc ++ [v])
  | Some (v, TRBrack :: r) => Some (PList (acc ++ [v]), r)
  | _ => None
  end.
Proof. reflexivity. Qed.

Lemma parse_members_S n k r acc :
  parse_members (S n) (TString k :: TColon :: r) acc =
  match parse_value n r with
  | Some (v, TComma :: r') => parse_members n r' (dict_set acc k v)
  | Some (v, TRBrace :: r') => Some (PDict (dict_set acc k v), r')
  | _ => None
  end.
Proof. reflexivity. Qed.

Lemma tokens_head v :
  encodable v ->
  exists t ts, tokens v = t :: ts /\ t <> TRBrack /\ t <> TRBrace.
Proof.
  destruct v as [| [|] | z | r | s | l | d | cls]; intros H;
    try (eexists _, _; split; [reflexivity | split; discriminate]).
  discriminate H.
Qed.

Lemma dict_set_fresh acc k v :
  existsb (String.eqb k) (map fst acc) = false ->
  dict_set acc k v = (acc ++ [(k, v)])%list.
Proof.
  induction acc as [|[k' v'] acc IH]; simpl; [reflexivity|].
  rewrite orb_false_iff. intros [Hk Hacc].
  rewrite String.eqb_sym, Hk. now rewrite IH.
Qed.

Lemma distinct_app_cons keys k rest :
  distinct (keys ++ k :: rest) = true ->
  existsb (String.eqb k) keys = false /\ distinct ((keys ++ [k]) ++ rest) = true.
Proof.
  intros H. split.
  - induction keys as [|k' keys IH]; [reflexivity|].
    simpl in H. apply andb_true_iff in H as [Hk' Hd]. simpl.
    rewrite (IH Hd), orb_false_r.
    rewrite negb_true_iff, existsb_app, orb_false_iff in Hk'.
    destruct Hk' as [_ Hk']. simpl in Hk'. rewrite orb_false_iff in Hk'.
    rewrite String.eqb_sym. tauto.
  - now rewrite <- app_assoc.
Qed.

(** The items of an array, after its opening bracket or a comma. *)
Lemma parse_elements_items (l : list pyval) :
  Forall (fun x => forall n rest, List.length (tokens x) < n ->
                     parse_value n (tokens x ++ rest) = Some (x, rest)) l ->
  l <> [] ->
  forall n acc rest,
    List.length (sep_concat TComma (map tokens l)) + 1 < n ->
    parse_elements n (sep_concat TComma (map tokens l) ++ TRBrack :: rest) acc
    = Some (PList (acc ++ l), rest).
Proof.
  induction 1 as [|x l Hx _ IH]; [congruence|]. intros _ n acc rest Hn.
  destruct n as [|n]; [lia|]. rewrite parse_elements_S.
  destruct l as [|y l].
  - simpl in *. rewrite Hx by lia. reflexivity.
  - change (sep_concat TComma (map tokens (x :: y :: l)))
      with (tokens x ++ TComma :: sep_concat TComma (map tokens (y :: l)))%list in *.
    rewrite length_app in Hn. cbn [List.length] in Hn.
    rewrite <- app_assoc. rewrite Hx by lia.
    cbn [app]. rewrite IH; [|discriminate|lia].
    now rewrite <- app_assoc.
Qed.

(** The members of an object, after its opening brace or a comma. *)
Lemma parse_members_items (d : list (string * pyval)) :
  Forall (fun kv => forall n rest, List.length (tokens (snd kv)) < n ->
                      parse_value n (tokens (snd kv) ++ rest) = Some (snd kv, rest)) d ->
  d <> [] ->
  forall n acc rest,
    distinct (map fst acc ++ map fst d) = true ->
    List.length (sep_concat TComma
              (map (fun kv => TString (fst kv) :: TColon :: tokens (snd kv)) d)) + 1 < n ->
    parse_members n
      (sep_concat TComma (map (fun kv => TString (fst kv) :: TColon :: tokens (snd kv)) d)
         ++ TRBrace :: rest) acc
    = Some (PDict (acc ++ d), rest).
Proof.
  induction 1 as [|[k x] d Hx _ IH]; [congruence|]. intros _ n acc rest Hd Hn.
  destruct n as [|n]; [lia|].
  cbn [map fst] in Hd. apply distinct_app_cons in Hd as [Hk Hd].
  destruct d as [|kv d].
  - cbn [map sep_concat fst snd app] in *. rewrite parse_members_S.
    rewrite Hx by (simpl in Hn; lia). now rewrite dict_set_fresh.
  - change (sep_concat TComma
              (map (fun kv => TString (fst kv) :: TColon :: tokens (snd kv))
                   ((k, x) :: kv :: d)))
      with ((TString k :: TColon :: tokens x) ++ TComma ::
            sep_concat TComma
              (map (fun kv => TString (fst kv) :: TColon :: tokens (snd kv)) (kv :: d)))%list
      in *.
    rewrite length_app in Hn. cbn [List.length] in Hn.
    rewrite <- app_assoc. cbn [app]. rewrite parse_members_S.
    cbn [snd] in Hx. rewrite Hx by lia.
    rewrite dict_set_fresh by exact Hk.
    rewrite IH; [now rewrite <- app_assoc | discriminate | | lia].
    now rewrite map_app.
Qed.

Lemma parse_value_tokens v :
  encodable v -> python_value v = true ->
  forall n rest, List.length (tokens v) < n ->
    parse_value n (tokens v ++ rest) = Some (v, rest).
Proof.
  revert v.
  refine (pyval_nested_ind _ _ _ _ _ _ _ _ _);
    [| intros b | intros z | intros r | intros s | intros l IH | intros d IH
     | intros cls]; intros Henc Hpy n rest Hn;
    try (destruct n as [|n]; [simpl in Hn; lia|]).
  - reflexivity.
  - destruct b; reflexivity.
  - reflexivity.
  - reflexivity.
  - reflexivity.
  - apply encodable_list in Henc. apply python_value_list in Hpy.
    destruct l as [|x l]; [reflexivity|].
    assert (Hx : Forall (fun x => forall n rest, List.length (tokens x) < n ->
                           parse_value n (tokens x ++ rest) = Some (x, rest)) (x :: l)).
    { rewrite Forall_forall in *. intros y Hy. apply IH; auto. }
    pose proof (parse_elements_items (x :: l) Hx ltac:(discriminate)) as HE.
    cbn [tokens] in *. cbn [List.length] in Hn. rewrite length_app in Hn.
    cbn [List.length] in Hn.
    inversion Henc as [|? ? Hencx _]; subst.
    destruct (tokens_head x Hencx) as (t & ts & Ht & Hb & _).
    cbn [app]. rewrite <- app_assoc. cbn [app].
    specialize (HE n [] rest ltac:(lia)).
    assert (Hbody : exists body,
               sep_concat TComma (map tokens (x :: l)) = t :: body).
    { destruct l; cbn [map sep_concat]; rewrite Ht; eexists; reflexivity. }
    destruct Hbody as [body Hbody]. rewrite Hbody in *. cbn [app] in *.
    destruct t; try congruence; exact HE.
  - apply encodable_dict in Henc. apply python_value_dict in Hpy as [Hdis Hpy].
    destruct d as [|[k x] d]; [reflexivity|].
    assert (Hx : Forall (fun kv => forall n rest, List.length (tokens (snd kv)) < n ->
                           parse_value n (tokens (snd kv) ++ rest) = Some (snd kv, rest))
                   ((k, x) :: d)).
    { rewrite Forall_forall in *. intros y Hy. apply IH; auto. }
    pose proof (parse_members_items ((k, x) :: d) Hx ltac:(discriminate)) as HE.
    cbn [tokens] in *. cbn [List.length] in Hn. rewrite length_app in Hn.
    cbn [List.length] in Hn.
    cbn [app]. rewrite <- app_assoc. cbn [app].
    specialize (HE n [] rest Hdis ltac:(lia)).
    destruct d; exact HE.
  - discriminate Henc.
Qed.

(** The round trip: what the encoder writes, in either layout, the decoder
    reads back as the value written. *)
Lemma json_loads_encoded v :
  encodable v -> python_value v = true ->
  json_loads (compact v) = Some v /\ forall depth, json_loads (pretty depth v) = Some v.
Proof.
  intros Henc Hpy. destruct (lexes_value v Henc Hpy) as [Hc Hp].
  assert (G : forall s, lexes s (tokens v) -> json_loads s = Some v).
  { intros s Hs. unfold json_loads. specialize (Hs "" eq_refl).
    rewrite sapp_nil_r in Hs. rewrite Hs. simpl. unfold parse.
    rewrite app_nil_r.
    pose proof (parse_value_tokens v Henc Hpy (S (List.length (tokens v))) []
                  (Nat.lt_succ_diag_r _)) as H.
    rewrite app_nil_r in H. now rewrite H. }
  split; [|intros depth]; apply G; auto.
Qed.

(** ** What the decoder returns is a Python value the encoder accepts *)

Lemma span_digits_prefix s d r x :
  span_digits s = (d, r) -> nondigit x = true -> span_digits (d ++ x) = (d, x).
Proof.
  revert d r; induction s as [|c s IH]; intros d r H Hx; simpl in H.
  - injection H as <- <-. destruct x as [|c t]; [reflexivity|].
    simpl in *. apply negb_true_iff in Hx. now rewrite Hx.
  - destruct (is_digit c) eqn:Hc.
    + destruct (span_digits s) as [d' r']. injection H as <- <-.
      simpl. rewrite Hc. now rewrite (IH _ _ eq_refl Hx).
    + injection H as <- <-. destruct x as [|c' t]; [reflexivity|].
      simpl in *. apply negb_true_iff in Hx. now rewrite Hx.
Qed.

Lemma digit_is_plain c :
  is_digit c = true ->
  char_in c "-" = false /\ (c =? ".")%char = false /\
  ((c =? "e") || (c =? "E"))%char = false.
Proof. ascii_cases c; try discriminate; repeat split; reflexivity. Qed.

Lemma lex_int_digits_prefix s d r x :
  lex_int_digits s = Some (d, r) -> nondigit x = true ->
  lex_int_digits (d ++ x) = Some (d, x) /\
  exists c t, d = String c t /\ is_digit c = true.
Proof.
  destruct s as [|c t]; simpl; [discriminate|]. intros H Hx.
  destruct (c =? "0")%char eqn:H0.
  - injection H as <- <-. split; [reflexivity|]. exists "0"%char, ""; auto.
  - destruct (is_digit c) eqn:Hc; [|discriminate].
    destruct (span_digits t) as [d' r'] eqn:Hs. injection H as <- <-.
    split; [|eauto]. simpl. rewrite H0, Hc.
    now rewrite (span_digits_prefix _ _ _ _ Hs Hx).
Qed.

Lemma lex_sign_cases signs s sign r :
  lex_sign signs s = (sign, r) ->
  sign = "" \/ exists c, sign = String c "" /\ char_in c signs = true.
Proof.
  destruct s as [|c t]; simpl; [intros [= <- _]; auto|].
  destruct (char_in c signs) eqn:Hc; intros [= <- _]; eauto.
Qed.

Lemma lex_int_part_prefix s i r x :
  lex_int_part s = Some (i, r) -> nondigit x = true ->
  lex_int_part (i ++ x) = Some (i, x).
Proof.
  unfold lex_int_part. intros H Hx.
  destruct (lex_sign "-" s) as [sign s1] eqn:Hsign.
  destruct (lex_int_digits s1) as [[d r']|] eqn:Hd; [|discriminate].
  injection H as <- <-.
  destruct (lex_int_digits_prefix _ _ _ _ Hd Hx) as (Hd' & c & t & -> & Hc).
  destruct (digit_is_plain c Hc) as (Hm & _).
  destruct (lex_sign_cases _ _ _ _ Hsign) as [-> | (c0 & -> & Hc0)].
  - cbn [append lex_sign]. rewrite Hm. cbn [append] in Hd'. now rewrite Hd'.
  - cbn [append lex_sign]. rewrite Hc0. cbn [append] in Hd'. now rewrite Hd'.
Qed.

Lemma lex_frac_prefix s f r :
  lex_frac s = (f, r) ->
  f = "" \/
  (exists d, f = String "." d /\ d <> "" /\
             forall x, nondigit x = true -> span_digits (d ++ x) = (d, x)).
Proof.
  destruct s as [|c t]; simpl; [intros [= <- <-]; auto|].
  destruct (c =? ".")%char eqn:Hc; [|intros [= <- <-]; auto].
  apply Ascii.eqb_eq in Hc. subst c.
  destruct (span_digits t) as [[|a d] r'] eqn:Hs; intros [= <- <-]; [auto|].
  right. exists (String a d). repeat split; [discriminate|].
  intros x Hx. exact (span_digits_prefix _ _ _ _ Hs Hx).
Qed.

Lemma lex_sign_prefix signs s sign r x :
  lex_sign signs s = (sign, r) ->
  (forall c, is_digit c = true -> char_in c signs = false) ->
  x <> "" -> nondigit x = false ->
  lex_sign signs (sign ++ x) = (sign, x).
Proof.
  intros H Hsigns Hne Hx. destruct s as [|c t]; simpl in H.
  - injection H as <- <-. destruct x as [|a x]; [congruence|].
    simpl in *. apply negb_false_iff in Hx. now rewrite (Hsigns a Hx).
  - destruct (char_in c signs) eqn:Hc; injection H as <- <-.
    + simpl. now rewrite Hc.
    + destruct x as [|a x]; [congruence|].
      simpl in *. apply negb_false_iff in Hx. now rewrite (Hsigns a Hx).
Qed.

Lemma lex_exp_prefix s e r :
  lex_exp s = (e, r) ->
  e = "" \/
  (lex_exp e = (e, "") /\
   exists c t, e = String c t /\ ((c =? "e") || (c =? "E"))%char = true).
Proof.
  destruct s as [|c t]; simpl; [intros [= <- <-]; auto|].
  destruct ((c =? "e") || (c =? "E"))%char eqn:Hc; [|intros [= <- <-]; auto].
  destruct (lex_sign "+-" t) as [sign t1] eqn:Hsign.
  destruct (span_digits t1) as [[|a d] r'] eqn:Hs; intros [= <- <-]; [auto|].
  right. split; [|eauto]. simpl. rewrite Hc.
  assert (Ha : is_digit a = true).
  { destruct t1 as [|b t1]; simpl in Hs; [discriminate|].
    destruct (is_digit b) eqn:Hb; [|discriminate].
    destruct (span_digits t1). now injection Hs as <- _ _. }
  rewrite (lex_sign_prefix _ _ _ _ (String a d) Hsign).
  - pose proof (span_digits_prefix _ _ _ "" Hs eq_refl) as Hd.
    rewrite sapp_nil_r in Hd. now rewrite Hd.
  - intros c0 Hc0. ascii_cases c0; try discriminate; reflexivity.
  - discriminate.
  - simpl. now rewrite Ha.
Qed.

(** A float literal read at the head of a text has a [repr] of its own. *)
Lemma lex_number_float s r rest :
  lex_number s = Some (TFloat r, rest) -> float_repr r = true.
Proof.
  unfold lex_number. intros H.
  destruct (lex_int_part s) as [[i s1]|] eqn:Hi; [|discriminate].
  destruct (lex_frac s1) as [f s2] eqn:Hf.
  destruct (lex_exp s2) as [e s3] eqn:He.
  assert (Hr : r = i ++ f ++ e /\ (f <> "" \/ e <> "")).
  { destruct f, e; try (injection H as <- _; split; [reflexivity|]);
      try (left; discriminate); try (right; discriminate).
    destruct (NilEmpty.int_of_string i); discriminate. }
  destruct Hr as [-> Hfe]. clear H.
  apply lex_frac_prefix in Hf. apply lex_exp_prefix in He.
  assert (Hne : nondigit e = true).
  { destruct He as [-> | (_ & c & t & -> & Hc)]; [reflexivity|].
    simpl. destruct (is_digit c) eqn:Hd; [|reflexivity].
    destruct (digit_is_plain c Hd) as (_ & _ & Hc'). congruence. }
  assert (Hnf : nondigit (f ++ e) = true).
  { destruct Hf as [-> | (d & -> & _)]; [exact Hne | reflexivity]. }
  assert (Hfrac : lex_frac (f ++ e) = (f, e)).
  { destruct Hf as [-> | (d & -> & Hd & Hspan)].
    - destruct He as [-> | (_ & c & t & -> & Hc)]; [reflexivity|].
      simpl. destruct (c =? ".")%char eqn:Hdot; [|reflexivity].
      apply Ascii.eqb_eq in Hdot. subst c. discriminate Hc.
    - simpl. rewrite (Hspan e Hne). destruct d; [congruence | reflexivity]. }
  assert (Hexp : lex_exp e = (e, "")).
  { destruct He as [-> | [He _]]; [reflexivity | exact He]. }
  assert (G : lex_number (i ++ f ++ e) = Some (TFloat (i ++ f ++ e), "")).
  { unfold lex_number. rewrite (lex_int_part_prefix _ _ _ _ Hi Hnf), Hfrac, Hexp.
    destruct f, e; try reflexivity. destruct Hfe; congruence. }
  unfold float_repr. rewrite G, String.eqb_refl. now rewrite !orb_true_r.
Qed.

Lemma lex_word_in words s t r :
  lex_word words s = Some (t, r) -> In t (map snd words).
Proof.
  induction words as [|[p t'] words IH]; simpl; [discriminate|].
  destruct (strip_prefix p s); [intros [= <- _]; auto | auto].
Qed.

Lemma next_token_ok s t r : next_token s = Some (t, r) -> token_ok t.
Proof.
  destruct s as [|c s']; [discriminate|]. unfold next_token.
  repeat match goal with
         | |- (if ?b then Some (_, s') else _) = _ -> _ =>
             destruct b; [intros [= <- _]; exact I|]
         end.
  destruct (c =? dquote)%char.
  - destruct (scanstring s') as [[x r']|]; [intros [= <- _]; exact I | discriminate].
  - destruct (lex_word _ (String c s')) as [[t' r']|] eqn:Hw.
    + intros [= <- _]. apply lex_word_in in Hw.
      simpl in Hw. destruct Hw as [<- | [<- | [<- | []]]]; exact I.
    + destruct (lex_number (String c s')) as [[t' r']|] eqn:Hn.
      * intros [= <- _]. destruct t'; try exact I.
        exact (lex_number_float _ _ _ Hn).
      * intros Hw'. apply lex_word_in in Hw'.
        simpl in Hw'. destruct Hw' as [<- | [<- | [<- | []]]]; reflexivity.
Qed.

Lemma lex_ok n s ts : lex n s = Some ts -> Forall token_ok ts.
Proof.
  revert s ts; induction n as [|n IH]; intros s ts; [discriminate|].
  rewrite lex_S. destruct (skip_ws s) as [|c s']; [intros [= <-]; constructor|].
  destruct (next_token (String c s')) as [[t r]|] eqn:Ht; [|discriminate].
  destruct (lex n r) as [ts'|] eqn:Hr; [|discriminate].
  intros [= <-]. constructor; [exact (next_token_ok _ _ _ Ht) | eauto].
Qed.

Lemma good_list l : good (PList l) <-> Forall good l.
Proof.
  unfold good. rewrite encodable_list, python_value_list, !Forall_forall.
  split; [intros [H1 H2] x Hx | intros H; split; intros x Hx]; try apply H; auto.
Qed.

Lemma existsb_dict_set acc k v k' :
  existsb (String.eqb k') (map fst (dict_set acc k v)) =
  existsb (String.eqb k') (map fst acc) || String.eqb k' k.
Proof.
  induction acc as [|[k0 v0] acc IH]; simpl; [now rewrite orb_false_r|].
  destruct (String.eqb_spec k0 k) as [->|Hne]; simpl.
  - destruct (String.eqb k' k); [now rewrite orb_true_r | now rewrite orb_false_r].
  - rewrite IH. now rewrite orb_assoc.
Qed.

Lemma distinct_dict_set acc k v :
  distinct (map fst acc) = true -> distinct (map fst (dict_set acc k v)) = true.
Proof.
  induction acc as [|[k0 v0] acc IH]; simpl; [reflexivity|].
  rewrite andb_true_iff, negb_true_iff. intros [Hk0 Hd].
  destruct (String.eqb_spec k0 k) as [->|Hne]; simpl.
  - now rewrite Hk0, Hd.
  - rewrite existsb_dict_set, Hk0, (IH Hd). simpl.
    apply String.eqb_neq in Hne. now rewrite Hne.
Qed.

Lemma good_dict d :
  good (PDict d) <->
  distinct (map fst d) = true /\ Forall (fun kv => good (snd kv)) d.
Proof.
  unfold good. rewrite encodable_dict, python_value_dict, !Forall_forall.
  split.
  - intros (H1 & H2 & H3). split; [exact H2|]. intros x Hx; split; auto.
  - intros (H1 & H2). repeat split; auto; intros x Hx; apply H2; auto.
Qed.

Lemma good_dict_set acc k v :
  good (PDict acc) -> good v -> good (PDict (dict_set acc k v)).
Proof.
  rewrite !good_dict. intros [Hd Hacc] Hv. split; [now apply distinct_dict_set|].
  clear Hd. induction Hacc as [|[k0 v0] acc H0 Hacc IH]; simpl.
  - constructor; [exact Hv | constructor].
  - destruct (String.eqb k0 k); constructor; auto.
Qed.

Lemma parse_good n :
  (forall ts v r, Forall token_ok ts -> parse_value n ts = Some (v, r) ->
                  good v /\ Forall token_ok r) /\
  (forall ts acc v r, Forall token_ok ts -> Forall good acc ->
                      parse_elements n ts acc = Some (v, r) ->
                      good v /\ Forall token_ok r) /\
  (forall ts acc v r, Forall token_ok ts -> good (PDict acc) ->
                      parse_members n ts acc = Some (v, r) ->
                      good v /\ Forall token_ok r).
Proof.
  induction n as [|n (IHv & IHe & IHm)]; [repeat split; discriminate|].
  assert (tail : forall (t : token) ts, Forall token_ok (t :: ts) -> Forall token_ok ts)
    by (intros t ts H; now inversion H).
  assert (Hvalue : forall ts v r, Forall token_ok ts ->
            parse_value (S n) ts = Some (v, r) -> good v /\ Forall token_ok r).
  { intros ts v r Hts H. destruct ts as [|t ts]; [discriminate|].
    pose proof (tail _ _ Hts) as Hts'.
    destruct t; cbn [parse_value] in H; try discriminate;
      try (injection H as <- <-; split; [split; reflexivity | exact Hts']).
    - destruct ts as [|t' ts']; [eapply IHm; eauto; now apply good_dict|].
      destruct t'; try (eapply IHm; [exact Hts' | now apply good_dict | exact H]).
      injection H as <- <-. split; [split; reflexivity | eauto].
    - destruct ts as [|t' ts']; [eapply IHe; eauto|].
      destruct t'; try (eapply IHe; [exact Hts' | constructor | exact H]).
      injection H as <- <-. split; [split; reflexivity | eauto].
    - injection H as <- <-. split; [|exact Hts'].
      split; [reflexivity|]. now inversion Hts. }
  split; [exact Hvalue|]. split.
  - intros ts acc v r Hts Hacc. rewrite parse_elements_S.
    destruct (parse_value n ts) as [[x [|t r']]|] eqn:Hx; try discriminate.
    destruct (IHv _ _ _ Hts Hx) as [Hgx Hr'].
    assert (Hg : Forall good (acc ++ [x])) by (apply Forall_app; auto).
    destruct t; try discriminate.
    + intros [= <- <-]. split; [now apply good_list | eauto].
    + intros H. eapply IHe; [exact (tail _ _ Hr') | exact Hg | exact H].
  - intros ts acc v r Hts Hacc.
    destruct ts as [|[] [|[] ts]]; try discriminate.
    rewrite parse_members_S.
    assert (Hts' : Forall token_ok ts) by eauto.
    destruct (parse_value n ts) as [[x [|t r']]|] eqn:Hx; try discriminate.
    destruct (IHv _ _ _ Hts' Hx) as [Hgx Hr'].
    pose proof (good_dict_set acc s x Hacc Hgx) as Hg.
    destruct t; try discriminate.
    + intros [= <- <-]. split; eauto.
    + intros H. eapply IHm; [exact (tail _ _ Hr') | exact Hg | exact H].
Qed.

(** Whatever [json.loads] returns is a Python value that [json.dumps]
    accepts. *)
Lemma json_loads_good s v : json_loads s = Some v -> good v.
Proof.
  unfold json_loads, tokenize, parse.
  destruct (lex _ s) as [ts|] eqn:Hts; [|discriminate].
  apply lex_ok in Hts.
  destruct (parse_value _ ts) as [[v' [|t r]]|] eqn:Hv; try discriminate.
  intros [= <-]. exact (proj1 (proj1 (parse_good _) _ _ _ Hts Hv)).
Qed.


(* ================================================================== *)
(** * Theorems: log sink *)

Lemma stored_entries_good file l :
  stored_entries file = Some l -> Forall good l.
Proof.
  destruct file as [text|]; simpl; [|intros [= <-]; constructor].
  destruct (json_loads text) as [v|] eqn:Hv; [|intros [= <-]; constructor].
  destruct v; try discriminate. intros [= <-].
  apply good_list. exact (json_loads_good _ _ Hv).
Qed.

Lemma good_entry ts et desc raw :
  good raw -> good (log_entry ts et desc raw).
Proof.
  intros [He Hp]. unfold log_entry. apply good_dict. split; [reflexivity|].
  repeat constructor; assumption.
Qed.

Lemma encodable_entry ts et desc raw :
  encodable raw -> encodable (log_entry ts et desc raw).
Proof.
  intros He. unfold log_entry. apply encodable_dict.
  repeat constructor; assumption.
Qed.

(** The encoder cannot raise at lines 72-73: what was decoded encodes, and
    the payload of the new entry was encoded at line 60 already. *)
Lemma log_event_document_always_encodes file l ts et desc raw :
  stored_entries file = Some l -> encodable raw ->
  json_dump_indent2 (PList (l ++ [log_entry ts et desc raw]))
  = Ok (pretty 0 (PList (l ++ [log_entry ts et desc raw]))).
Proof.
  intros Hl He. unfold json_dump_indent2.
  assert (E : encodable (PList (l ++ [log_entry ts et desc raw]))).
  { apply encodable_list, Forall_app. split.
    - apply stored_entries_good in Hl. rewrite Forall_forall in *.
      intros x Hx. now apply Hl.
    - repeat constructor. now apply encodable_entry. }
  unfold encodable in E. now rewrite E.
Qed.

Ltac sink_cbn :=
  cbn -[pretty compact log_entry notification json_dump_indent2 json_loads
        app append].

(** ** The three ways a call can end *)

(** The payload does not encode: [json.dumps] raises while the arguments of
    the [INSERT] are evaluated, and nothing is written. *)
Lemma log_event_payload_rejected env et desc raw w o :
  first_unserializable raw = Some o ->
  log_event env et desc raw w =
  (World (db w) (json_file w) (trace w) (S (calls w)) (polls w) (attempts w),
   Raise (not_serializable o)).
Proof.
  intros Ho. unfold log_event, bind, next_call, lift, json_dumps. simpl.
  now rewrite Ho.
Qed.

(** The document holds JSON that is not an array: the row is committed,
    then [logs.append] raises and the document is left as it was. *)
Lemma log_event_document_rejected env et desc raw w :
  encodable raw -> stored_entries (json_file w) = None ->
  exists e,
    log_event env et desc raw w =
    (World (db w ++ [Row (utcnow env (calls w)) et desc (compact raw)])
           (json_file w)
           (trace w ++ [DbInsert (Row (utcnow env (calls w)) et desc (compact raw))])
           (S (calls w)) (polls w) (attempts w),
     Raise e) /\ exn_class e = "AttributeError".
Proof.
  intros He Hs. unfold log_event, bind, next_call, lift, json_dumps. simpl.
  unfold encodable in He. rewrite He. simpl.
  unfold stored_entries in Hs. destruct (json_file w) as [text|]; [|discriminate].
  destruct (json_loads text) as [v|]; [|discriminate].
  destruct v; try discriminate; simpl; eexists; split; reflexivity.
Qed.

(** Otherwise the call runs to its end: row, document, notification. *)
Lemma log_event_completes env et desc raw w l :
  encodable raw -> stored_entries (json_file w) = Some l ->
  log_event env et desc raw w =
  (let ts := utcnow env (calls w) in
   let r := Row ts et desc (compact raw) in
   let text := pretty 0 (PList (l ++ [log_entry ts et desc raw])) in
   World (db w ++ [r]) (Some text)
         (trace w ++ DbInsert r :: FileWrite text
                  :: send_effects env (calls w) (notification et desc))
         (S (calls w)) (polls w) (attempts w),
   Ok tt).
Proof.
  intros He Hs.
  pose proof (log_event_document_always_encodes _ _ (utcnow env (calls w)) et desc raw
                Hs He) as Hdump.
  unfold log_event, bind, next_call, lift, json_dumps, db_insert, load_logs.
  unfold encodable in He. rewrite He.
  sink_cbn.
  assert (Hl : match json_file w with
               | None => PList []
               | Some text => match json_loads text with
                              | Some v => v
                              | None => PList []
                              end
               end = PList l).
  { unfold stored_entries in Hs. destruct (json_file w) as [text|]; [|congruence].
    destruct (json_loads text) as [v|]; [|congruence].
    destruct v; try discriminate. congruence. }
  rewrite Hl. cbn [list_append]. unfold dump_logs. rewrite Hdump.
  unfold set_file, send_telegram_message, send_effects, bind, print, emit.
  sink_cbn.
  destruct (send_message env (calls w) (notification et desc));
    sink_cbn;
    rewrite <- !app_assoc; reflexivity.
Qed.





(** C9. A call that writes both records writes the same four fields to
    both: one timestamp, the event type, the description, and a payload
    whose text in the row is [json.dumps] of the value in the document, so
    that decoding the row's text gives the document's value. *)
Theorem log_event_row_and_entry_agree env et desc raw w l :
  good raw -> stored_entries (json_file w) = Some l ->
  exists w' doc,
    log_event env et desc raw w = (w', Ok tt) /\
    db w' = (db w ++ [Row (utcnow env (calls w)) et desc (compact raw)])%list /\
    json_dumps raw = Ok (compact raw) /\
    json_file w' = Some doc /\
    json_loads doc
    = Some (PList (l ++ [PDict [("timestamp", PStr (utcnow env (calls w)));
                                ("event_type", PStr et);
                                ("description", PStr desc);
                                ("raw_data", raw)]])) /\
    json_loads (compact raw) = Some raw.
Proof.
  intros [He Hp] Hs. rewrite (log_event_completes _ _ _ _ _ _ He Hs).
  eexists _, _. split; [reflexivity|]. cbn [db json_file].
  split; [reflexivity|]. split; [unfold json_dumps; now rewrite He|].
  split; [reflexivity|]. split.
  - assert (G : good (PList (l ++ [log_entry (utcnow env (calls w)) et desc raw]))).
    { apply good_list, Forall_app. split; [eapply stored_entries_good; eauto|].
      repeat constructor; try apply good_entry; split; assumption. }
    destruct G as [G1 G2]. exact (proj2 (json_loads_encoded _ G1 G2) 0).
  - exact (proj1 (json_loads_encoded _ He Hp)).
Qed.

(** One call on a document the sink can append to returns normally and
    leaves a document that decodes as the entries found, then the new one. *)
Lemma log_event_appends env et desc raw w l :
  good raw -> stored_entries (json_file w) = Some l ->
  snd (log_event env et desc raw w) = Ok tt /\
  exists text,
    json_file (fst (log_event env et desc raw w)) = Some text /\
    json_loads text
    = Some (PList (l ++ [log_entry (utcnow env (calls w)) et desc raw])).
Proof.
  intros [He Hp] Hs. rewrite (log_event_completes _ _ _ _ _ _ He Hs).
  split; [reflexivity|]. eexists. split; [reflexivity|].
  assert (G : good (PList (l ++ [log_entry (utcnow env (calls w)) et desc raw]))).
  { apply good_list, Forall_app. split; [eapply stored_entries_good; eauto|].
    repeat constructor; try apply good_entry; split; assumption. }
  destruct G as [G1 G2]. exact (proj2 (json_loads_encoded _ G1 G2) 0).
Qed.








(* ================================================================== *)
(** * Theorems: event adapter and supervisor *)

Lemma inserted_app a b : inserted (a ++ b) = (inserted a ++ inserted b)%list.
Proof. apply flat_map_app. Qed.

Lemma grows_refl w : grows w w [].
Proof. split; simpl; now rewrite app_nil_r. Qed.

Lemma grows_trans w w1 w2 a b :
  grows w w1 a -> grows w1 w2 b -> grows w w2 (a ++ b).
Proof.
  intros [Ht1 Hd1] [Ht2 Hd2]. split.
  - now rewrite Ht2, Ht1, app_assoc.
  - now rewrite Hd2, Hd1, inserted_app, app_assoc.
Qed.

Lemma grows_inv w w' a b : grows w w' a -> trace w' = (trace w ++ b)%list -> a = b.
Proof. intros [Ht _] H. rewrite Ht in H. now apply app_inv_head in H. Qed.

Lemma send_effects_notifies env n msg : notifies (send_effects env n msg).
Proof.
  unfold send_effects, notifies.
  destruct (send_message env n msg); repeat constructor.
Qed.

Lemma inserted_notifies sends : notifies sends -> inserted sends = [].
Proof.
  induction 1 as [|e sends He _ IH]; [reflexivity|].
  destruct e; try contradiction; exact IH.
Qed.

Lemma notifies_sink et sends : notifies sends -> Forall (sink_effect et) sends.
Proof.
  apply Forall_impl. intros e He. destruct e; try contradiction; exact I.
Qed.

Lemma parse_elements_list n :
  forall ts acc v r, parse_elements n ts acc = Some (v, r) -> exists l, v = PList l.
Proof.
  induction n as [|n IH]; intros ts acc v r; [discriminate|].
  rewrite parse_elements_S.
  destruct (parse_value n ts) as [[x [|[] r']]|]; try discriminate.
  - intros [= <- _]. eauto.
  - apply IH.
Qed.

Lemma parse_value_bracket n ts v r :
  parse_value n (TLBrack :: ts) = Some (v, r) -> exists l, v = PList l.
Proof.
  destruct n as [|n]; [discriminate|]. cbn [parse_value].
  destruct ts as [|t ts']; [apply parse_elements_list|].
  destruct t; try apply parse_elements_list.
  intros [= <- _]. eauto.
Qed.

(** A text that starts with an opening bracket decodes to a list, if at all. *)
Lemma json_loads_bracket rest v :
  json_loads (String "[" rest) = Some v -> exists l, v = PList l.
Proof.
  unfold json_loads.
  rewrite (tokenize_next (String "[" rest) TLBrack rest eq_refl).
  destruct (tokenize rest) as [ts|]; [|discriminate]. cbn [option_map].
  unfold parse.
  destruct (parse_value _ (TLBrack :: ts)) as [[v' [|t r]]|] eqn:Hp;
    try discriminate.
  intros [= <-]. exact (parse_value_bracket _ _ _ _ Hp).
Qed.

(** What the sink writes can be appended to by the next call, whatever
    the entries. *)
Lemma written_appendable l : stored_entries (Some (pretty 0 (PList l))) <> None.
Proof.
  unfold stored_entries.
  destruct (json_loads (pretty 0 (PList l))) as [v|] eqn:Hv; [|discriminate].
  assert (exists l', v = PList l') as [l' ->]; [|discriminate].
  destruct l; exact (json_loads_bracket _ _ Hv).
Qed.

(** What a call of [log_event] does to the world, whatever its outcome. *)
Lemma log_event_grows env et desc raw w :
  exists new,
    grows w (fst (log_event env et desc raw w)) new /\
    Forall (sink_effect et) new /\
    polls (fst (log_event env et desc raw w)) = polls w /\
    attempts (fst (log_event env et desc raw w)) = attempts w /\
    calls (fst (log_event env et desc raw w)) = S (calls w) /\
    (stored_entries (json_file w) <> None ->
     stored_entries (json_file (fst (log_event env et desc raw w))) <> None) /\
    (encodable raw ->
     inserted new = [Row (utcnow env (calls w)) et desc (compact raw)] /\
     (stored_entries (json_file w) <> None ->
      snd (log_event env et desc raw w) = Ok tt /\
      exists text sends,
        new = DbInsert (Row (utcnow env (calls w)) et desc (compact raw))
                :: FileWrite text :: sends /\ notifies sends)).
Proof.
  destruct (first_unserializable raw) as [o|] eqn:Ho.
  { rewrite (log_event_payload_rejected _ _ _ _ _ _ Ho). exists [].
    cbn [fst snd polls attempts calls json_file].
    split; [split; cbn [trace db]; simpl; now rewrite app_nil_r|]. split; [constructor|].
    do 3 (split; [reflexivity|]). split; [auto|].
    unfold encodable. congruence. }
  destruct (stored_entries (json_file w)) as [l|] eqn:Hs.
  - rewrite (log_event_completes _ _ _ _ _ _ Ho Hs).
    pose proof (send_effects_notifies env (calls w) (notification et desc)) as Hn.
    eexists (_ :: _ :: _). cbn [fst snd polls attempts calls json_file trace db].
    assert (Hi : forall r text,
               inserted (DbInsert r :: FileWrite text
                           :: send_effects env (calls w) (notification et desc)) = [r]).
    { intros r text. change (DbInsert r :: FileWrite text :: ?x)
        with ([DbInsert r; FileWrite text] ++ x)%list.
      rewrite inserted_app, (inserted_notifies _ Hn). reflexivity. }
    split; [split; [reflexivity | now rewrite Hi]|].
    split; [repeat constructor; now apply notifies_sink|].
    do 3 (split; [reflexivity|]).
    split; [intros _; apply written_appendable|].
    intros _. split; [apply Hi|]. intros _. split; [reflexivity|].
    eexists _, _. split; [reflexivity | exact Hn].
  - destruct (log_event_document_rejected env et desc raw w Ho Hs) as (e & -> & _).
    eexists [_]. cbn [fst snd polls attempts calls json_file trace db].
    split; [split; reflexivity|].
    split; [repeat constructor|].
    do 3 (split; [reflexivity|]). split; [congruence|].
    intros _. split; [reflexivity | congruence].
Qed.

Lemma dispatch_adapt env ev :
  dispatch env ev
  = log_event env (fst (fst (adapt ev))) (snd (fst (adapt ev))) (snd (adapt ev)).
Proof. destruct ev; reflexivity. Qed.

Lemma adapt_type ev :
  fst (fst (adapt ev)) = "OrderStatus" \/ fst (fst (adapt ev)) = "Execution" \/
  fst (fst (adapt ev)) = "OpenOrder".
Proof. destruct ev; simpl; auto. Qed.

Lemma sink_session_effect ev e :
  sink_effect (fst (fst (adapt ev))) e -> session_effect e.
Proof.
  unfold session_effect.
  destruct (adapt_type ev) as [-> | [-> | ->]]; auto.
Qed.

(** The handlers of a session only act through the sink; when the
    document can be appended to and every payload encodes, each event
    leaves its row, in order. *)
Lemma deliver_grows env evs :
  forall w,
  exists s,
    grows w (fst (deliver env evs w)) s /\
    Forall session_effect s /\
    polls (fst (deliver env evs w)) = polls w /\
    attempts (fst (deliver env evs w)) = attempts w /\
    (appendable w -> appendable (fst (deliver env evs w))) /\
    (appendable w -> payloads_encode evs ->
     snd (deliver env evs w) = Ok tt /\
     inserted s = session_rows env (calls w) evs /\
     calls (fst (deliver env evs w)) = calls w + List.length evs).
Proof.
  induction evs as [|ev evs IH]; intros w.
  - exists []. cbn [deliver ret fst snd].
    split; [apply grows_refl|]. split; [constructor|].
    repeat split; auto; simpl; lia.
  - destruct (log_event_grows env (fst (fst (adapt ev))) (snd (fst (adapt ev)))
                (snd (adapt ev)) w)
      as (new & Hg & Hnew & Hp & Ha & Hc & Hap & Henc).
    rewrite <- dispatch_adapt in *.
    cbn [deliver]. unfold bind, try_except.
    destruct (dispatch env ev w) as [w1 o] eqn:E. cbn [fst snd] in *.
    assert (Hsess : Forall session_effect new).
    { revert Hnew. apply Forall_impl. intros e. apply sink_session_effect. }
    destruct (IH w1) as (s & Hg' & Hs & Hp' & Ha' & Hap' & Henc').
    assert (Hgo : exists s,
               grows w (fst (deliver env evs w1)) s /\
               Forall session_effect s /\
               polls (fst (deliver env evs w1)) = polls w /\
               attempts (fst (deliver env evs w1)) = attempts w /\
               (appendable w -> appendable (fst (deliver env evs w1))) /\
               (appendable w -> payloads_encode (ev :: evs) ->
                snd (deliver env evs w1) = Ok tt /\
                inserted s = session_rows env (calls w) (ev :: evs) /\
                calls (fst (deliver env evs w1)) = calls w + List.length (ev :: evs))).
    { exists (new ++ s)%list. split; [eapply grows_trans; eauto|].
      split; [apply Forall_app; auto|].
      split; [congruence|]. split; [congruence|].
      split; [intros Hw; apply Hap', Hap, Hw|].
      intros Hw Hall. apply Forall_cons_iff in Hall as [Hev Hevs].
      destruct (Henc Hev) as [Hi _].
      destruct (Henc' (Hap Hw) Hevs) as (Hok & Hi' & Hc').
      split; [exact Hok|]. split.
      - rewrite inserted_app, Hi, Hi', Hc. reflexivity.
      - rewrite Hc', Hc. simpl. lia. }
    destruct o as [[]|e]; [exact Hgo|].
    destruct (handler_errors_escape env); [|exact Hgo].
    cbn [raise fst snd]. exists new.
    split; [exact Hg|]. split; [exact Hsess|].
    split; [exact Hp|]. split; [exact Ha|]. split; [exact Hap|].
    intros Hw Hall. apply Forall_cons_iff in Hall as [Hev Hevs].
    destruct (Henc Hev) as [_ Hok]. destruct (Hok Hw) as [Hok' _]. discriminate.
Qed.

(** [ib.run()]: what the handlers do, then the return or the exception. *)
Lemma ib_run_grows env k w :
  exists s failure,
    grows w (fst (ib_run env k w)) (s ++ [Run failure]) /\
    Forall session_effect s /\
    polls (fst (ib_run env k w)) = polls w /\
    attempts (fst (ib_run env k w)) = attempts w /\
    (appendable w -> appendable (fst (ib_run env k w))) /\
    snd (ib_run env k w) = match failure with None => Ok tt | Some e => Raise e end /\
    (appendable w -> payloads_encode (fst (ib_session env k)) ->
     failure = snd (ib_session env k) /\
     inserted s = session_rows env (calls w) (fst (ib_session env k)) /\
     calls (fst (ib_run env k w))
     = calls w + List.length (fst (ib_session env k))).
Proof.
  destruct (deliver_grows env (fst (ib_session env k)) w)
    as (s & Hg & Hs & Hp & Ha & Hap & Henc).
  unfold ib_run, try_except, bind.
  destruct (deliver env (fst (ib_session env k)) w) as [w1 o] eqn:E.
  cbn [fst snd] in *.
  assert (Hrun : forall failure, inserted (s ++ [Run failure]) = inserted s)
    by (intros failure; rewrite inserted_app; simpl; now rewrite app_nil_r).
  assert (Hgrow : forall failure w2,
             trace w2 = (trace w1 ++ [Run failure])%list -> db w2 = db w1 ->
             grows w w2 (s ++ [Run failure])).
  { intros failure w2 Ht Hd. destruct Hg as [Ht1 Hd1]. split.
    - now rewrite Ht, Ht1, app_assoc.
    - now rewrite Hd, Hd1, Hrun. }
  destruct o as [[]|e].
  - destruct (snd (ib_session env k)) as [e|] eqn:Hend.
    + cbn [raise emit fst snd]. exists s, (Some e).
      split; [now apply Hgrow|]. repeat split; auto.
      * now destruct (Henc H H0) as (_ & ? & _).
      * now destruct (Henc H H0) as (_ & _ & ?).
    + cbn [ret emit fst snd]. exists s, None.
      split; [now apply Hgrow|]. repeat split; auto.
      * now destruct (Henc H H0) as (_ & ? & _).
      * now destruct (Henc H H0) as (_ & _ & ?).
  - cbn [raise emit fst snd]. exists s, (Some e).
    split; [now apply Hgrow|]. repeat split; auto;
      destruct (Henc H H0) as (? & _); discriminate.
Qed.

(** The Error call of the [except] block: its payload encodes, so the row
    is always committed. *)
Lemma log_error_grows env e w :
  exists r alive,
    grows w (fst (log_event env "Error" ("Failed to connect or monitor: " ++ exn_msg e)
                    (PDict []) w)) r /\
    inserted r = [error_row (utcnow env (calls w)) e] /\
    polls (fst (log_event env "Error" ("Failed to connect or monitor: " ++ exn_msg e)
                  (PDict []) w)) = polls w /\
    attempts (fst (log_event env "Error" ("Failed to connect or monitor: " ++ exn_msg e)
                     (PDict []) w)) = attempts w /\
    calls (fst (log_event env "Error" ("Failed to connect or monitor: " ++ exn_msg e)
                  (PDict []) w)) = S (calls w) /\
    (appendable w ->
     alive = true /\
     appendable (fst (log_event env "Error"
                        ("Failed to connect or monitor: " ++ exn_msg e) (PDict []) w))) /\
    match snd (log_event env "Error" ("Failed to connect or monitor: " ++ exn_msg e)
                 (PDict []) w) with
    | Ok _ =>
        alive = true /\
        exists text sends,
          r = DbInsert (error_row (utcnow env (calls w)) e) :: FileWrite text :: sends /\
          notifies sends
    | Raise _ => alive = false /\ r = [DbInsert (error_row (utcnow env (calls w)) e)]
    end.
Proof.
  set (desc := "Failed to connect or monitor: " ++ exn_msg e).
  assert (He : first_unserializable (PDict []) = None) by reflexivity.
  destruct (stored_entries (json_file w)) as [l|] eqn:Hs.
  - rewrite (log_event_completes _ _ _ _ _ _ He Hs).
    pose proof (send_effects_notifies env (calls w) (notification "Error" desc)) as Hn.
    eexists (_ :: _ :: _), true.
    cbn [fst snd polls attempts calls json_file trace db].
    assert (Hi : forall r text,
               inserted (DbInsert r :: FileWrite text
                           :: send_effects env (calls w) (notification "Error" desc))
               = [r]).
    { intros r text. change (DbInsert r :: FileWrite text :: ?x)
        with ([DbInsert r; FileWrite text] ++ x)%list.
      rewrite inserted_app, (inserted_notifies _ Hn). reflexivity. }
    split; [split; [reflexivity | now rewrite Hi]|].
    split; [apply Hi|]. do 3 (split; [reflexivity|]).
    split; [intros _; split; [reflexivity | apply written_appendable]|].
    split; [reflexivity|]. eexists _, _. split; [reflexivity | exact Hn].
  - destruct (log_event_document_rejected env "Error" desc (PDict []) w He Hs)
      as (x & -> & _).
    eexists [_], false. cbn [fst snd polls attempts calls json_file trace db].
    split; [split; reflexivity|]. split; [reflexivity|].
    do 3 (split; [reflexivity|]).
    split; [unfold appendable; congruence|]. split; reflexivity.
Qed.

Lemma inserted_sleep t s : inserted (t ++ [Sleep s]) = inserted t.
Proof. rewrite inserted_app. simpl. apply app_nil_r. Qed.

(** The [except] block after the exception [e]. *)
Lemma recover_grows env e w :
  let m := (log_event env "Error" ("Failed to connect or monitor: " ++ exn_msg e)
              (PDict []) ;; sleep 10) in
  exists r alive,
    grows w (fst (m w)) r /\ recovered (Some e) r alive /\
    inserted r = [error_row (utcnow env (calls w)) e] /\
    polls (fst (m w)) = polls w /\ attempts (fst (m w)) = attempts w /\
    calls (fst (m w)) = S (calls w) /\
    (alive = true <-> snd (m w) = Ok tt) /\
    (appendable w -> alive = true /\ appendable (fst (m w))).
Proof.
  intros m. subst m. unfold bind, sleep, emit.
  destruct (log_error_grows env e w) as (r & alive & [Ht Hd] & Hi & Hp & Ha & Hc & Hap & Ho).
  destruct (log_event env "Error" ("Failed to connect or monitor: " ++ exn_msg e)
              (PDict []) w) as [w1 o] eqn:E.
  cbn [fst snd] in *. destruct o as [[]|x].
  - destruct Ho as (-> & text & sends & -> & Hn).
    exists (DbInsert (error_row (utcnow env (calls w)) e) :: FileWrite text
              :: sends ++ [Sleep 10])%list, true.
    cbn [fst snd polls attempts calls json_file trace db].
    split.
    { split.
      - rewrite Ht. rewrite <- app_assoc. reflexivity.
      - rewrite Hd, Hi.
        change (DbInsert ?r :: FileWrite text :: sends ++ [Sleep 10])%list
          with ((DbInsert r :: FileWrite text :: sends) ++ [Sleep 10])%list.
        now rewrite inserted_sleep, Hi. }
    split; [now constructor|].
    split.
    { change (DbInsert ?r :: FileWrite text :: sends ++ [Sleep 10])%list
        with ((DbInsert r :: FileWrite text :: sends) ++ [Sleep 10])%list.
      now rewrite inserted_sleep. }
    repeat split; auto. exact (proj2 (Hap H)).
  - destruct Ho as (-> & ->).
    exists [DbInsert (error_row (utcnow env (calls w)) e)], false.
    cbn [fst snd].
    split; [split; assumption|]. split; [constructor|].
    split; [reflexivity|]. do 3 (split; [assumption|]).
    split; [split; discriminate|]. intros Hw. destruct (Hap Hw). discriminate.
Qed.

(** ** Reading the shapes *)

Lemma polled_app a b : polled (a ++ b) = (polled a ++ polled b)%list.
Proof. apply flat_map_app. Qed.

Lemma opens_app a b : opens (a ++ b) = (opens a ++ opens b)%list.
Proof. apply flat_map_app. Qed.

Lemma failures_app a b : failures (a ++ b) = (failures a ++ failures b)%list.
Proof. apply flat_map_app. Qed.

Lemma session_quiet s :
  Forall session_effect s ->
  polled s = [] /\ opens s = [] /\ failures s = [] /\
  filter is_error_row (inserted s) = [].
Proof.
  induction 1 as [|e s He _ (IH1 & IH2 & IH3 & IH4)]; [repeat split|].
  destruct e as [line | r | text | text f | n | b | f | f];
    unfold session_effect, sink_effect in He; try (exfalso; tauto);
    simpl; repeat split; auto.
  unfold is_error_row. destruct He as [-> | [-> | ->]]; exact IH4.
Qed.

Lemma notifies_quiet s :
  notifies s -> polled s = [] /\ opens s = [] /\ failures s = [] /\ inserted s = [].
Proof.
  induction 1 as [|e s He _ (IH1 & IH2 & IH3 & IH4)]; [repeat split|].
  destruct e; try contradiction; simpl; repeat split; auto.
Qed.

Lemma tried_reads t failure :
  tried t failure ->
  polled t = [] /\ opens t = [match t with Connect f :: _ => f | _ => None end] /\
  failures t = match failure with Some e => [e] | None => [] end /\
  filter is_error_row (inserted t) = [].
Proof.
  intros [e | s f Hs]; [repeat split|].
  destruct (session_quiet s Hs) as (H1 & H2 & H3 & H4).
  change (Connect None :: Print ?x :: s ++ [Run f])%list
    with ([Connect None; Print x] ++ s ++ [Run f])%list.
  rewrite !polled_app, !opens_app, !failures_app, !inserted_app, H1, H2, H3.
  rewrite !filter_app, H4. destruct f; repeat split.
Qed.

Lemma recovered_reads failure r alive :
  recovered failure r alive ->
  polled r = [] /\ opens r = [] /\ failures r = [] /\
  map row_description (filter is_error_row (inserted r))
  = match failure with
    | Some e => ["Failed to connect or monitor: " ++ exn_msg e]
    | None => []
    end.
Proof.
  intros [| e ts text sends Hn | e ts]; [repeat split | | repeat split].
  destruct (notifies_quiet sends Hn) as (H1 & H2 & H3 & H4).
  change (DbInsert ?r :: FileWrite text :: sends ++ [Sleep 10])%list
    with ([DbInsert r; FileWrite text] ++ sends ++ [Sleep 10])%list.
  rewrite !polled_app, !opens_app, !failures_app, !inserted_app, H1, H2, H3, H4.
  repeat split.
Qed.

(** One turn: one answer of the poller; one connection attempt exactly when
    the answer is "ready"; and as many Error rows as exceptions caught, each
    with the text of its exception. *)
Lemma turn_reads t alive :
  turn t alive ->
  exists ready,
    polled t = [ready] /\
    List.length (opens t) = (if ready then 1 else 0) /\
    map row_description (filter is_error_row (inserted t))
    = map (fun e => "Failed to connect or monitor: " ++ exn_msg e) (failures t).
Proof.
  intros [| t' failure r alive' Ht Hr].
  - exists false. repeat split.
  - exists true.
    destruct (tried_reads _ _ Ht) as (H1 & H2 & H3 & H4).
    destruct (recovered_reads _ _ _ Hr) as (R1 & R2 & R3 & R4).
    change (Poll true :: Print ?x :: t' ++ r)%list
      with ([Poll true; Print x] ++ t' ++ r)%list.
    rewrite !polled_app, !opens_app, !failures_app, !inserted_app.
    rewrite H1, H2, H3, R1, R2, R3, !filter_app, H4, !map_app, R4.
    repeat split. destruct failure; reflexivity.
Qed.

(** ** One turn of the loop *)

Lemma after_grows w new p k : inserted new = [] -> grows w (after w new p k) new.
Proof. intros Hi. split; [reflexivity | simpl; now rewrite Hi, app_nil_r]. Qed.

Lemma try_block_unfold env k w :
  (connect env k ;;
   print "[INFO] Connected and monitoring started." ;;
   ib_run env k) w
  = match ib_connect env k with
    | Some e => (after w [Connect (Some e)] (polls w) (attempts w), Raise e)
    | None =>
        ib_run env k
          (after w [Connect None; Print "[INFO] Connected and monitoring started."]
             (polls w) (attempts w))
    end.
Proof.
  unfold bind, connect, print, emit, after.
  cbn [fst snd db json_file trace calls polls attempts].
  destruct (ib_connect env k); unfold bind, raise, ret;
    cbn [fst snd db json_file trace calls polls attempts];
    [reflexivity|].
  now rewrite <- app_assoc.
Qed.

Lemma iteration_unfold env w :
  iteration env w
  = if ready_at env (polls w) then
      try_except
        (connect env (attempts w) ;;
         print "[INFO] Connected and monitoring started." ;;
         ib_run env (attempts w))
        (fun e =>
           log_event env "Error" ("Failed to connect or monitor: " ++ exn_msg e)
             (PDict []) ;;
           sleep 10)
        (after w [Poll true; Print "[INFO] TWS detected. Connecting..."]
           (S (polls w)) (S (attempts w)))
    else (after w [Poll false; Sleep 5] (S (polls w)) (attempts w), Ok tt).
Proof.
  unfold iteration, ready_at, after.
  unfold bind at 1, next_poll. cbn [fst snd].
  unfold bind at 1, emit at 1. cbn [fst snd db json_file trace calls polls attempts].
  destruct (is_tws_running (TWS_PROCESS_NAME env) (process_iter env (polls w))).
  - unfold bind at 1, print at 1, emit at 1.
    cbn [fst snd db json_file trace calls polls attempts].
    unfold bind at 1, next_attempt.
    cbn [fst snd db json_file trace calls polls attempts].
    now rewrite <- app_assoc.
  - unfold sleep, emit. cbn [fst snd db json_file trace calls polls attempts].
    now rewrite <- app_assoc.
Qed.

(** What the [try] block does. *)
Lemma try_block_tried env k w :
  exists t failure w1,
    tried t failure /\ grows w w1 t /\
    polls w1 = polls w /\ attempts w1 = attempts w /\
    (appendable w -> appendable w1) /\
    (connect env k ;;
     print "[INFO] Connected and monitoring started." ;;
     ib_run env k) w
    = (w1, match failure with None => Ok tt | Some e => Raise e end) /\
    (appendable w -> payloads_encode (fst (ib_session env k)) ->
     match ib_connect env k with
     | Some e => failure = Some e /\ inserted t = [] /\ calls w1 = calls w
     | None =>
         failure = snd (ib_session env k) /\
         inserted t = session_rows env (calls w) (fst (ib_session env k)) /\
         calls w1 = calls w + List.length (fst (ib_session env k))
     end).
Proof.
  rewrite try_block_unfold.
  destruct (ib_connect env k) as [e|] eqn:Hc.
  - eexists [Connect (Some e)], (Some e), _.
    split; [constructor|]. split; [now apply after_grows|].
    repeat split; auto.
  - set (w0 := after w _ _ _).
    assert (G0 : grows w w0 [Connect None; Print "[INFO] Connected and monitoring started."])
      by now apply after_grows.
    destruct (ib_run_grows env k w0)
      as (s & failure & Hg & Hs & Hp & Ha & Hap & Ho & Hrows).
    destruct (ib_run env k w0) as [w2 o] eqn:E. cbn [fst snd] in *.
    exists (Connect None :: Print "[INFO] Connected and monitoring started."
              :: s ++ [Run failure])%list, failure, w2.
    split; [now constructor|].
    split; [exact (grows_trans _ _ _ _ _ G0 Hg)|].
    split; [exact Hp|]. split; [exact Ha|]. split; [intros H; apply Hap; exact H|].
    split; [now rewrite Ho|].
    intros H1 H2. destruct (Hrows H1 H2) as (Hf & Hi & Hc').
    split; [exact Hf|]. split; [|exact Hc'].
    change (Connect None :: Print ?x :: s ++ [Run failure])%list
      with ([Connect None; Print x] ++ s ++ [Run failure])%list.
    rewrite !inserted_app. simpl. now rewrite app_nil_r.
Qed.

Lemma session_rows_length env n evs :
  List.length (session_rows env n evs) = List.length evs.
Proof. revert n; induction evs as [|ev evs IH]; intros n; simpl; auto. Qed.

Lemma iteration_turn env w :
  exists t alive,
    grows w (fst (iteration env w)) t /\ turn t alive /\
    polls (fst (iteration env w)) = S (polls w) /\
    attempts (fst (iteration env w))
    = (if ready_at env (polls w) then S (attempts w) else attempts w) /\
    (alive = true <-> snd (iteration env w) = Ok tt) /\
    (appendable w -> alive = true /\ appendable (fst (iteration env w))) /\
    (appendable w -> payloads_encode (fst (ib_session env (attempts w))) ->
     inserted t = turn_rows env (polls w) (attempts w) (calls w) /\
     calls (fst (iteration env w))
     = calls w + List.length (turn_rows env (polls w) (attempts w) (calls w))).
Proof.
  rewrite iteration_unfold. unfold turn_rows.
  destruct (ready_at env (polls w)) eqn:Hr.
  2:{ exists [Poll false; Sleep 5], true. cbn [fst snd].
      split; [now apply after_grows|]. split; [constructor|].
      repeat split; auto; simpl; lia. }
  set (w0 := after w _ _ _).
  assert (G0 : grows w w0 [Poll true; Print "[INFO] TWS detected. Connecting..."])
    by now apply after_grows.
  destruct (try_block_tried env (attempts w) w0)
    as (t & failure & w1 & Ht & Hg & Hp & Ha & Hap & Heq & Hrows).
  unfold try_except. rewrite Heq.
  change (calls w0) with (calls w) in Hrows.
  destruct failure as [e|].
  - destruct (recover_grows env e w1)
      as (r & alive & Hgr & Hrec & Hi & Hp' & Ha' & Hc' & Hal & Hap').
    cbv zeta in *.
    exists (Poll true :: Print "[INFO] TWS detected. Connecting..." :: t ++ r)%list, alive.
    split.
    { change (Poll true :: Print ?x :: t ++ r)%list
        with ([Poll true; Print x] ++ t ++ r)%list.
      exact (grows_trans _ _ _ _ _ G0 (grows_trans _ _ _ _ _ Hg Hgr)). }
    split; [econstructor; eauto|].
    split; [now rewrite Hp', Hp|]. split; [now rewrite Ha', Ha|]. split; [exact Hal|].
    split; [intros H; apply Hap'; auto|].
    intros H1 H2. specialize (Hrows H1 H2).
    change (Poll true :: Print ?x :: t ++ r)%list
      with ([Poll true; Print x] ++ t ++ r)%list.
    rewrite !inserted_app, Hi, Hc'. cbn [inserted flat_map app].
    destruct (ib_connect env (attempts w)) as [e'|].
    + destruct Hrows as ([= ->] & -> & ->). split; [reflexivity|].
      cbn [List.length]. lia.
    + destruct Hrows as (<- & -> & ->). split; [reflexivity|].
      rewrite length_app, session_rows_length. cbn [List.length]. lia.
  - exists (Poll true :: Print "[INFO] TWS detected. Connecting..." :: t ++ [])%list, true.
    cbn [fst snd].
    split.
    { change (Poll true :: Print ?x :: t ++ [])%list
        with ([Poll true; Print x] ++ t ++ [])%list.
      rewrite app_nil_r. exact (grows_trans _ _ _ _ _ G0 Hg). }
    split; [econstructor; [eauto | constructor]|].
    split; [exact Hp|]. split; [exact Ha|]. split; [split; reflexivity|].
    split; [intros H; split; [reflexivity | apply Hap, H]|].
    intros H1 H2. specialize (Hrows H1 H2).
    change (Poll true :: Print ?x :: t ++ [])%list
      with ([Poll true; Print x] ++ t ++ [])%list.
    rewrite !inserted_app. cbn [inserted flat_map app]. rewrite app_nil_r.
    destruct (ib_connect env (attempts w)) as [e'|].
    + destruct Hrows as ([=] & _).
    + destruct Hrows as (<- & -> & ->). rewrite !app_nil_r, session_rows_length.
      split; reflexivity.
Qed.

(** ** The loop *)

Lemma loop_turns env n :
  forall w,
  exists ts alive,
    grows w (fst (loop env n w)) (concat ts) /\ turns n ts alive /\
    (alive = true <-> snd (loop env n w) = Ok tt) /\
    (appendable w ->
     alive = true /\ appendable (fst (loop env n w)) /\
     polls (fst (loop env n w)) = polls w + n) /\
    (appendable w -> sessions_encode env ->
     inserted (concat ts) = expected_rows env n (polls w) (attempts w) (calls w)).
Proof.
  induction n as [|n IH]; intros w.
  - exists [], true. cbn [loop ret fst snd concat expected_rows].
    split; [apply grows_refl|]. split; [constructor|].
    repeat split; auto.
  - destruct (iteration_turn env w)
      as (t & alive & Hg & Ht & Hp & Ha & Hal & Hap & Hrows).
    cbn [loop]. unfold bind.
    destruct (iteration env w) as [w1 o] eqn:E. cbn [fst snd] in *.
    destruct o as [[]|e].
    + assert (alive = true) by now apply Hal. subst alive.
      destruct (IH w1) as (ts & alive' & Hg' & Hts & Hal' & Hap' & Hrows').
      exists (t :: ts), alive'. cbn [concat].
      split; [exact (grows_trans _ _ _ _ _ Hg Hg')|].
      split; [now constructor|]. split; [exact Hal'|]. split.
      * intros Hw. destruct (Hap Hw) as [_ Hw1].
        destruct (Hap' Hw1) as (-> & Hw2 & Hp2). repeat split; auto. lia.
      * intros Hw Henc. destruct (Hap Hw) as [_ Hw1].
        destruct (Hrows Hw (Henc _)) as [Hi Hc].
        rewrite inserted_app, Hi, (Hrows' Hw1 Henc), Hp, Ha, Hc.
        reflexivity.
    + assert (alive = false).
      { destruct alive; [|reflexivity].
        assert (X : @Raise unit e = Ok tt) by now apply Hal. discriminate X. }
      subst alive.
      exists [t], false. cbn [concat]. rewrite app_nil_r.
      split; [exact Hg|]. split; [now constructor|].
      split; [split; discriminate|]. split.
      * intros Hw. destruct (Hap Hw). discriminate.
      * intros Hw _. destruct (Hap Hw). discriminate.
Qed.

Lemma monitor_ibkr_turns env n w :
  exists ts alive,
    grows w (fst (monitor_ibkr env n w))
      (Print "[INFO] Waiting for IBKR TWS to start..." :: concat ts) /\
    turns n ts alive /\
    (alive = true <-> snd (monitor_ibkr env n w) = Ok tt) /\
    (appendable w ->
     alive = true /\ appendable (fst (monitor_ibkr env n w)) /\
     polls (fst (monitor_ibkr env n w)) = polls w + n) /\
    (appendable w -> sessions_encode env ->
     inserted (concat ts) = expected_rows env n (polls w) (attempts w) (calls w)).
Proof.
  unfold monitor_ibkr, init_db, bind at 1, ret. unfold bind at 1, print, emit.
  cbn [fst snd].
  set (w0 := World _ _ _ _ _ _).
  destruct (loop_turns env n w0) as (ts & alive & Hg & Hts & Hal & Hap & Hrows).
  exists ts, alive.
  split.
  { change (Print ?x :: concat ts) with ([Print x] ++ concat ts)%list.
    refine (grows_trans _ _ _ _ _ _ Hg).
    split; [reflexivity | simpl; now rewrite app_nil_r]. }
  split; [exact Hts|]. split; [exact Hal|]. split; [exact Hap | exact Hrows].
Qed.

(** ** Counting over the turns *)

Lemma turns_read n ts alive :
  turns n ts alive ->
  List.length (opens (concat ts))
  = List.length (filter (fun b : bool => b) (polled (concat ts))) /\
  map row_description (filter is_error_row (inserted (concat ts)))
  = map (fun e => "Failed to connect or monitor: " ++ exn_msg e)
        (failures (concat ts)).
Proof.
  assert (one : forall t a, turn t a ->
            List.length (opens t) = List.length (filter (fun b : bool => b) (polled t)) /\
            map row_description (filter is_error_row (inserted t))
            = map (fun e => "Failed to connect or monitor: " ++ exn_msg e) (failures t)).
  { intros t a Ht. destruct (turn_reads t a Ht) as (ready & Hp & Ho & He).
    rewrite Hp, Ho. split; [destruct ready; reflexivity | exact He]. }
  induction 1 as [| n t Ht | n t ts alive Ht _ [IH1 IH2]]; cbn [concat].
  - split; reflexivity.
  - rewrite app_nil_r. eapply one; eauto.
  - destruct (one _ _ Ht) as [H1 H2].
    rewrite opens_app, polled_app, inserted_app, failures_app.
    rewrite !filter_app, !map_app, !length_app, H1, H2, IH1, IH2.
    split; reflexivity.
Qed.

Lemma rising_edges_toggles prev answers :
  toggles (prev :: answers) = true ->
  rising_edges prev answers = List.length (filter (fun b : bool => b) answers).
Proof.
  revert prev; induction answers as [|a answers IH]; intros prev H; [reflexivity|].
  cbn [toggles] in H. apply andb_true_iff in H as [Hne Hrest].
  cbn [rising_edges filter]. rewrite (IH a Hrest).
  destruct prev, a; try discriminate; reflexivity.
Qed.

Lemma rising_edges_from_rest answers :
  toggles answers = true ->
  rising_edges false answers = List.length (filter (fun b : bool => b) answers).
Proof.
  destruct answers as [|a answers]; [reflexivity|]. intros H.
  cbn [rising_edges filter]. rewrite (rising_edges_toggles a answers H).
  destruct a; reflexivity.
Qed.

(* ================================================================== *)
(** * Theorems: the claims about the supervisor and the adapter *)

(** C5. In every run of the supervisor, whenever the answers of the poller
    toggle (no two in a row are the same, as in false, true, false, true),
    the number of connection attempts is the number of changes from "not
    ready" to "ready"; and the Error rows written are, one for one and in
    order, the exceptions the [try] block ended with, each with the text of
    its exception. The rows written are those the trace shows inserted. *)
Theorem supervisor_opens_once_per_ready_transition env n w new :
  trace (fst (monitor_ibkr env n w)) = (trace w ++ new)%list ->
  toggles (polled new) = true ->
  List.length (opens new) = rising_edges false (polled new) /\
  map row_description (filter is_error_row (inserted new))
  = map (fun e => "Failed to connect or monitor: " ++ exn_msg e) (failures new) /\
  db (fst (monitor_ibkr env n w)) = (db w ++ inserted new)%list.
Proof.
  intros Hnew Htog.
  destruct (monitor_ibkr_turns env n w) as (ts & alive & Hg & Hts & _).
  pose proof (grows_inv _ _ _ _ Hg Hnew) as <-.
  destruct (turns_read _ _ _ Hts) as [Ho He].
  change (Print ?x :: concat ts) with ([Print x] ++ concat ts)%list in *.
  rewrite opens_app, polled_app, inserted_app, failures_app in *.
  cbn [opens polled inserted failures flat_map app] in *.
  split; [|split; [exact He | apply Hg]].
  rewrite Ho. symmetry. now apply rising_edges_from_rest.
Qed.

Lemma supervisor_opens_once_per_ready_transition_witness :
  polled (trace (fst (monitor_ibkr (toggling fill_flat false) 4 fresh)))
  = [false; true; false; true] /\
  (List.length (opens (trace (fst (monitor_ibkr (toggling fill_flat false) 4 fresh)))) = 2 /\
   map row_description
     (filter is_error_row
        (inserted (trace (fst (monitor_ibkr (toggling fill_flat false) 4 fresh)))))
   = ["Failed to connect or monitor: refused"] /\
   db (fst (monitor_ibkr (toggling fill_flat false) 4 fresh))
   = inserted (trace (fst (monitor_ibkr (toggling fill_flat false) 4 fresh)))).
Proof.
  assert (Hnew : trace (fst (monitor_ibkr (toggling fill_flat false) 4 fresh))
                 = (trace fresh
                      ++ trace (fst (monitor_ibkr (toggling fill_flat false) 4 fresh)))%list)
    by (vm_compute; reflexivity).
  assert (Htog : toggles (polled (trace (fst (monitor_ibkr (toggling fill_flat false) 4
                                                fresh)))) = true)
    by (vm_compute; reflexivity).
  assert (Hedges : rising_edges false
                     (polled (trace (fst (monitor_ibkr (toggling fill_flat false) 4 fresh))))
                   = 2)
    by (vm_compute; reflexivity).
  assert (Hfail : map (fun e => "Failed to connect or monitor: " ++ exn_msg e)
                    (failures (trace (fst (monitor_ibkr (toggling fill_flat false) 4 fresh))))
                  = ["Failed to connect or monitor: refused"])
    by (vm_compute; reflexivity).
  assert (Hnil : forall rows : list row, (db fresh ++ rows)%list = rows)
    by (intros rows; reflexivity).
  destruct (supervisor_opens_once_per_ready_transition (toggling fill_flat false) 4 fresh
              (trace (fst (monitor_ibkr (toggling fill_flat false) 4 fresh))) Hnew Htog)
    as (Hopens & Hrows & Hdb).
  split; [vm_compute; reflexivity|].
  split; [exact (eq_trans Hopens Hedges)|].
  split; [exact (eq_trans Hrows Hfail)|].
  exact (eq_trans Hdb (Hnil _)).
Defined.





Lemma sessions_encode_flat escape : sessions_encode (toggling fill_flat escape).
Proof. intros k. repeat constructor. Qed.

(** C3, the code does otherwise. A handler that cannot encode its event's
    [__dict__] writes nothing, so the table falls short of one row per event
    and failure. Here the terminal toggles; the first connection is refused
    and the second session delivers one fill whose [__dict__] holds its
    [Execution] object: two rows are due, the Error row is the only one
    written, and the session ends as if nothing had happened. *)
Theorem rows_fall_short_of_events_and_failures :
  List.length (failures (trace (fst (monitor_ibkr (toggling fill_object false) 4 fresh)))) = 1 /\
  fst (ib_session (toggling fill_object false) 1) = [fill_object] /\
  List.length (expected_rows (toggling fill_object false) 4 0 0 0) = 2 /\
  db (fst (monitor_ibkr (toggling fill_object false) 4 fresh))
  = [error_row (example_clock 0) (Exn "ConnectionRefusedError" "refused")] /\
  snd (monitor_ibkr (toggling fill_object false) 4 fresh) = Ok tt.
Proof. repeat split; vm_compute; reflexivity. Qed.

(** C4, the code does otherwise. For a fill whose [__dict__] holds its
    [Execution] object, the adapter builds the description, but
    [json.dumps(fill.__dict__)] raises [TypeError] while the arguments of
    the [INSERT] are evaluated: the handler ends with that exception, and
    neither the table nor the document nor the trace has changed. In the
    scenario of the specification the table is left with the Error row of
    the refused connection alone when the event library swallows the
    handler's exception, and with a second Error row, but no Execution row,
    when it lets the exception out of [ib.run()]. *)
Theorem handle_execution_object_fill_writes_no_row env w :
  adapt fill_object
  = ("Execution", "Trade executed: BUY 100 @ 50.25",
     PDict [("execution", PObject "Execution"); ("time", PStr "2025-01-01 00:00:00")]) /\
  dispatch env fill_object w
  = (World (db w) (json_file w) (trace w) (S (calls w)) (polls w) (attempts w),
     Raise (Exn "TypeError" "Object of type Execution is not JSON serializable")) /\
  map row_event_type (db (fst (monitor_ibkr (scenario fill_object false) 5 fresh)))
  = ["Error"] /\
  map row_event_type (db (fst (monitor_ibkr (scenario fill_object true) 5 fresh)))
  = ["Error"; "Error"].
Proof.
  split; [reflexivity|]. split.
  - unfold fill_object. cbn [dispatch]. unfold handle_execution.
    rewrite (log_event_payload_rejected env _ _
               (PDict [("execution", PObject "Execution");
                       ("time", PStr "2025-01-01 00:00:00")])
               w (PObject "Execution") eq_refl).
    reflexivity.
  - split; vm_compute; reflexivity.
Qed.

(** X1. When the document can be appended to and every session delivers
    events whose [__dict__] encodes, the supervisor is still running after any
    number of turns and has added to the table exactly one row per event
    delivered and one Error row per exception caught, in the order they
    happened. *)
Theorem monitor_ibkr_rows_follow_events_and_failures env n w :
  appendable w -> sessions_encode env ->
  snd (monitor_ibkr env n w) = Ok tt /\
  db (fst (monitor_ibkr env n w))
  = (db w ++ expected_rows env n (polls w) (attempts w) (calls w))%list.
Proof.
  intros Hw Henc.
  destruct (monitor_ibkr_turns env n w) as (ts & alive & Hg & _ & Hal & Hap & Hrows).
  destruct (Hap Hw) as (-> & _). split; [now apply Hal|].
  destruct Hg as [_ ->]. rewrite <- (Hrows Hw Henc). reflexivity.
Qed.

Lemma monitor_ibkr_rows_follow_events_and_failures_witness :
  snd (monitor_ibkr (toggling fill_flat false) 4 fresh) = Ok tt /\
  db (fst (monitor_ibkr (toggling fill_flat false) 4 fresh))
  = (db fresh ++ expected_rows (toggling fill_flat false) 4 (polls fresh) (attempts fresh)
                   (calls fresh))%list.
Proof.
  apply (monitor_ibkr_rows_follow_events_and_failures (toggling fill_flat false) 4 fresh).
  - discriminate.
  - apply sessions_encode_flat.
Defined.




Lemma log_event_row_and_entry_agree_witness :
  good (PDict [("orderId", PInt 7); ("price", PFloat "50.25")]) /\
  exists w' doc,
    log_event quiet "Execution" "Trade executed: BUY 100 @ 50.25"
      (PDict [("orderId", PInt 7); ("price", PFloat "50.25")]) fresh
    = (w', Ok tt) /\
    db w'
    = (db fresh ++ [Row (utcnow quiet (calls fresh)) "Execution"
                      "Trade executed: BUY 100 @ 50.25"
                      (compact (PDict [("orderId", PInt 7); ("price", PFloat "50.25")]))])%list /\
    json_dumps (PDict [("orderId", PInt 7); ("price", PFloat "50.25")])
    = Ok (compact (PDict [("orderId", PInt 7); ("price", PFloat "50.25")])) /\
    json_file w' = Some doc /\
    json_loads doc
    = Some (PList ([] ++ [PDict [("timestamp", PStr (utcnow quiet (calls fresh)));
                                 ("event_type", PStr "Execution");
                                 ("description", PStr "Trade executed: BUY 100 @ 50.25");
                                 ("raw_data",
                                  PDict [("orderId", PInt 7); ("price", PFloat "50.25")])]])) /\
    json_loads (compact (PDict [("orderId", PInt 7); ("price", PFloat "50.25")]))
    = Some (PDict [("orderId", PInt 7); ("price", PFloat "50.25")]).
Proof.
  assert (Hg : good (PDict [("orderId", PInt 7); ("price", PFloat "50.25")]))
    by (split; vm_compute; reflexivity).
  split; [exact Hg|].
  exact (log_event_row_and_entry_agree quiet "Execution" "Trade executed: BUY 100 @ 50.25"
           (PDict [("orderId", PInt 7); ("price", PFloat "50.25")]) fresh [] Hg eq_refl).
Defined.




(** X6. A payload that holds a value [json.dumps] cannot encode, at any
    depth, makes [log_event] raise [TypeError] naming the value's type
    before anything is written: no row, the document as it was, nothing
    sent and nothing printed. *)
Theorem log_event_rejects_payload_atomically env et desc raw w o :
  first_unserializable raw = Some o ->
  snd (log_event env et desc raw w)
  = Raise (Exn "TypeError" ("Object of type " ++ type_name o ++ " is not JSON serializable")) /\
  db (fst (log_event env et desc raw w)) = db w /\
  json_file (fst (log_event env et desc raw w)) = json_file w /\
  trace (fst (log_event env et desc raw w)) = trace w.
Proof.
  intros Ho. rewrite (log_event_payload_rejected env et desc raw w o Ho).
  repeat split.
Qed.

Lemma log_event_rejects_payload_atomically_witness :
  snd (log_event quiet "OrderStatus" "Order status: Filled"
         (PDict [("orderId", PInt 7); ("fills", PList [PDict [("fill", PObject "Fill")]])])
         fresh)
  = Raise (Exn "TypeError" ("Object of type " ++ type_name (PObject "Fill")
                              ++ " is not JSON serializable")) /\
  db (fst (log_event quiet "OrderStatus" "Order status: Filled"
             (PDict [("orderId", PInt 7); ("fills", PList [PDict [("fill", PObject "Fill")]])])
             fresh)) = db fresh /\
  json_file (fst (log_event quiet "OrderStatus" "Order status: Filled"
             (PDict [("orderId", PInt 7); ("fills", PList [PDict [("fill", PObject "Fill")]])])
             fresh)) = json_file fresh /\
  trace (fst (log_event quiet "OrderStatus" "Order status: Filled"
             (PDict [("orderId", PInt 7); ("fills", PList [PDict [("fill", PObject "Fill")]])])
             fresh)) = trace fresh.
Proof.
  exact (log_event_rejects_payload_atomically quiet "OrderStatus" "Order status: Filled"
           (PDict [("orderId", PInt 7); ("fills", PList [PDict [("fill", PObject "Fill")]])])
           fresh (PObject "Fill") eq_refl).
Defined.

(** X7. When the document holds JSON that is not an array, a call with an
    encodable payload commits its row and then raises [AttributeError] at
    [logs.append]: the table has the row, the document is left as it was
    and holds no entry for it, and nothing is sent. *)
Theorem log_event_row_without_entry env et desc raw w :
  encodable raw -> stored_entries (json_file w) = None ->
  (exists e, snd (log_event env et desc raw w) = Raise e /\
             exn_class e = "AttributeError") /\
  db (fst (log_event env et desc raw w))
  = (db w ++ [Row (utcnow env (calls w)) et desc (compact raw)])%list /\
  json_file (fst (log_event env et desc raw w)) = json_file w /\
  trace (fst (log_event env et desc raw w))
  = (trace w ++ [DbInsert (Row (utcnow env (calls w)) et desc (compact raw))])%list.
Proof.
  intros He Hs.
  destruct (log_event_document_rejected env et desc raw w He Hs) as (e & -> & Hc).
  split; [exists e; split; [reflexivity | exact Hc]|]. repeat split.
Qed.

Lemma log_event_row_without_entry_witness :
  (exists e, snd (log_event quiet "Error" "Failed to connect or monitor: refused" (PDict [])
                    not_an_array) = Raise e /\
             exn_class e = "AttributeError") /\
  db (fst (log_event quiet "Error" "Failed to connect or monitor: refused" (PDict [])
             not_an_array))
  = (db not_an_array
       ++ [Row (utcnow quiet (calls not_an_array)) "Error"
             "Failed to connect or monitor: refused" (compact (PDict []))])%list /\
  json_file (fst (log_event quiet "Error" "Failed to connect or monitor: refused" (PDict [])
                    not_an_array)) = json_file not_an_array /\
  trace (fst (log_event quiet "Error" "Failed to connect or monitor: refused" (PDict [])
                not_an_array))
  = (trace not_an_array
       ++ [DbInsert (Row (utcnow quiet (calls not_an_array)) "Error"
                       "Failed to connect or monitor: refused" (compact (PDict [])))])%list.
Proof.
  assert (He : encodable (PDict [])) by reflexivity.
  assert (Hs : stored_entries (json_file not_an_array) = None) by (vm_compute; reflexivity).
  exact (log_event_row_without_entry quiet "Error" "Failed to connect or monitor: refused"
           (PDict []) not_an_array He Hs).
Defined.

(** X4. A document that holds JSON other than an array stops the
    supervisor at its first failed connection: the Error row is committed,
    then [logs.append] raises [AttributeError] inside the [except] block,
    which nothing catches; the document stays as it was and no later turn
    runs, however long the supervisor is observed. *)
Theorem supervisor_stops_when_document_is_no_array env n w e :
  stored_entries (json_file w) = None ->
  ready_at env (polls w) = true ->
  ib_connect env (attempts w) = Some e ->
  (exists x, snd (monitor_ibkr env (S n) w) = Raise x /\ exn_class x = "AttributeError") /\
  db (fst (monitor_ibkr env (S n) w)) = (db w ++ [error_row (utcnow env (calls w)) e])%list /\
  json_file (fst (monitor_ibkr env (S n) w)) = json_file w /\
  polls (fst (monitor_ibkr env (S n) w)) = S (polls w).
Proof.
  intros Hs Hready Hconnect.
  assert (E : exists x w',
             monitor_ibkr env (S n) w = (w', Raise x) /\
             exn_class x = "AttributeError" /\
             db w' = (db w ++ [error_row (utcnow env (calls w)) e])%list /\
             json_file w' = json_file w /\ polls w' = S (polls w)).
  { unfold monitor_ibkr, init_db, ret, print, emit. unfold bind at 1 2.
    cbn [loop]. unfold bind at 1. rewrite iteration_unfold.
    cbn [polls]. rewrite Hready.
    unfold try_except. rewrite try_block_unfold.
    cbn [attempts after]. rewrite Hconnect. unfold bind at 1.
    assert (He : encodable (PDict [])) by reflexivity.
    match goal with
    | |- context [log_event ?a ?b ?c ?d ?w1] =>
        destruct (log_event_document_rejected a b c d w1 He Hs) as (x & Hx & Hc);
        rewrite Hx
    end.
    eexists _, _. split; [reflexivity|]. split; [exact Hc|].
    cbn [db json_file polls calls after]. repeat split. }
  destruct E as (x & w' & -> & Hc & Hdb & Hfile & Hpolls). cbn [fst snd].
  split; [exists x; split; [reflexivity | exact Hc]|].
  split; [exact Hdb|]. split; [exact Hfile | exact Hpolls].
Qed.

Lemma supervisor_stops_when_document_is_no_array_witness :
  (exists x, snd (monitor_ibkr refusing 3 not_an_array) = Raise x /\
             exn_class x = "AttributeError") /\
  db (fst (monitor_ibkr refusing 3 not_an_array))
  = (db not_an_array
       ++ [error_row (utcnow refusing (calls not_an_array))
             (Exn "ConnectionRefusedError" "refused")])%list /\
  json_file (fst (monitor_ibkr refusing 3 not_an_array)) = json_file not_an_array /\
  polls (fst (monitor_ibkr refusing 3 not_an_array)) = S (polls not_an_array).
Proof.
  assert (Hs : stored_entries (json_file not_an_array) = None) by (vm_compute; reflexivity).
  assert (Hr : ready_at refusing (polls not_an_array) = true) by (vm_compute; reflexivity).
  exact (supervisor_stops_when_document_is_no_array refusing 2 not_an_array
           (Exn "ConnectionRefusedError" "refused") Hs Hr eq_refl).
Defined.

Lemma proc_matches_lower name1 name2 p :
  lower name1 = lower name2 -> proc_matches name1 p = proc_matches name2 p.
Proof. intros H. unfold proc_matches. now rewrite H. Qed.

(** X10. The poller's answer depends only on which processes are listed,
    not on their order or on repetitions, and on the configured name only
    up to the case of its letters. *)
Theorem is_tws_running_same_answer name1 name2 l1 l2 :
  lower name1 = lower name2 ->
  (forall p, In p l1 <-> In p l2) ->
  is_tws_running name1 l1 = is_tws_running name2 l2.
Proof.
  intros Hn Hl.
  assert (E : is_tws_running name1 l1 = true <-> is_tws_running name2 l2 = true).
  { rewrite !is_tws_running_exists. split; intros (p & Hin & Hm); exists p.
    - split; [now apply Hl | now rewrite <- (proc_matches_lower _ _ p Hn)].
    - split; [now apply Hl | now rewrite (proc_matches_lower _ _ p Hn)]. }
  destruct (is_tws_running name1 l1), (is_tws_running name2 l2); try reflexivity.
  - symmetry. now apply E.
  - now apply E.
Qed.

Lemma is_tws_running_same_answer_witness :
  is_tws_running "tws.exe" [Proc (Some "explorer.exe"); Proc None; Proc (Some "TWS.exe")]
  = is_tws_running "TWS.EXE"
      [Proc (Some "TWS.exe"); Proc (Some "explorer.exe"); Proc (Some "TWS.exe"); Proc None].
Proof.
  apply (is_tws_running_same_answer "tws.exe" "TWS.EXE").
  - reflexivity.
  - intros p; simpl; tauto.
Defined.



Lemma log_event_step env et desc raw w l :
  good raw -> stored_entries (json_file w) = Some l ->
  exists w',
    log_event env et desc raw w = (w', Ok tt) /\
    db w' = (db w ++ [Row (utcnow env (calls w)) et desc (compact raw)])%list /\
    calls w' = S (calls w) /\
    stored_entries (json_file w')
    = Some (l ++ [log_entry (utcnow env (calls w)) et desc raw])%list.
Proof.
  intros Hg Hs.
  destruct (log_event_appends env et desc raw w l Hg Hs) as (_ & text & Hf & Ht).
  rewrite (log_event_completes env et desc raw w l (proj1 Hg) Hs) in Hf |- *.
  eexists. split; [reflexivity|]. cbn [db calls]. split; [reflexivity|].
  split; [reflexivity|]. cbn [fst] in Hf. rewrite Hf. unfold stored_entries.
  now rewrite Ht.
Qed.



Lemma session_rows_known s : Forall session_effect s -> Forall known_type (inserted s).
Proof.
  induction 1 as [|e s He _ IH]; [constructor|].
  destruct e; cbn [inserted flat_map app] in *; try exact IH.
  constructor; [|exact IH].
  unfold known_type. destruct He as [He | [He | He]]; simpl in He; rewrite He;
    simpl; auto.
Qed.

Lemma turn_known t alive : turn t alive -> Forall known_type (inserted t).
Proof.
  assert (Herr : forall ts e, known_type (error_row ts e)).
  { intros ts e. unfold known_type. simpl. auto. }
  intros Ht. inversion Ht as [| t' failure r alive' Htried Hrec]; subst.
  { constructor. }
  change (Poll true :: Print ?x :: t' ++ r)%list with ([Poll true; Print x] ++ t' ++ r)%list.
  rewrite !inserted_app. cbn [inserted flat_map app].
  apply Forall_app. split.
  - inversion Htried as [e | s f Hs]; subst; [constructor|].
    change (Connect None :: Print ?x :: s ++ [Run failure])%list
      with ([Connect None; Print x] ++ s ++ [Run failure])%list.
    rewrite !inserted_app. cbn [inserted flat_map app]. rewrite app_nil_r.
    now apply session_rows_known.
  - inversion Hrec as [| e ts text sends Hn | e ts]; subst.
    + constructor.
    + change (DbInsert ?r :: FileWrite text :: sends ++ [Sleep 10])%list
        with ([DbInsert r; FileWrite text] ++ sends ++ [Sleep 10])%list.
      rewrite !inserted_app, (inserted_notifies _ Hn).
      apply Forall_forall. intros x Hx. simpl in Hx.
      destruct Hx as [<- | []]. apply Herr.
    + apply Forall_forall. intros x Hx. simpl in Hx.
      destruct Hx as [<- | []]. apply Herr.
Qed.

Lemma turns_known n ts alive : turns n ts alive -> Forall known_type (inserted (concat ts)).
Proof.
  induction 1 as [| n t Ht | n t ts alive Ht Hts IH]; cbn [concat].
  - constructor.
  - rewrite app_nil_r. exact (turn_known _ _ Ht).
  - rewrite inserted_app. apply Forall_app. split; [exact (turn_known _ _ Ht) | exact IH].
Qed.

(** X8. Whatever its surroundings do and however long it runs, the
    supervisor only ever appends to the table: the rows it found stay where
    they are, unchanged, and every row it adds has one of the four event
    types OrderStatus, Execution, OpenOrder and Error. *)
Theorem monitor_ibkr_only_appends_known_rows env n w :
  exists rows,
    db (fst (monitor_ibkr env n w)) = (db w ++ rows)%list /\
    Forall known_type rows.
Proof.
  destruct (monitor_ibkr_turns env n w) as (ts & alive & Hg & Hts & _).
  exists (inserted (concat ts)). split.
  - destruct Hg as [_ ->]. reflexivity.
  - exact (turns_known _ _ _ Hts).
Qed.

Lemma loop_waits env n :
  forall w,
    (forall p, p < n -> ready_at env (polls w + p) = false) ->
    loop env n w
    = (World (db w) (json_file w)
             (trace w ++ concat (repeat [Poll false; Sleep 5] n))
             (calls w) (polls w + n) (attempts w),
       Ok tt).
Proof.
  induction n as [|n IH]; intros w Hnot.
  - cbn [loop repeat concat]. unfold ret. rewrite app_nil_r, Nat.add_0_r.
    destruct w; reflexivity.
  - cbn [loop]. unfold bind. rewrite iteration_unfold.
    assert (H0 : ready_at env (polls w) = false).
    { rewrite <- (Nat.add_0_r (polls w)). apply Hnot. lia. }
    rewrite H0. rewrite IH.
    + unfold after. cbn [db json_file trace calls polls attempts repeat concat].
      replace (S (polls w) + n) with (polls w + S n) by lia.
      rewrite <- app_assoc. reflexivity.
    + intros p Hp. unfold after. cbn [polls].
      replace (S (polls w) + p) with (polls w + S p) by lia. apply Hnot. lia.
Qed.

(** X9. As long as the poller does not see the terminal, the supervisor
    does nothing but poll and sleep five seconds: after its opening
    message, [n] turns are [n] times a poll and a sleep, with no connection
    attempt, no row, no change to the document and no notification. *)
Theorem monitor_ibkr_waits_for_terminal env n w :
  (forall p, p < n -> ready_at env (polls w + p) = false) ->
  monitor_ibkr env n w
  = (World (db w) (json_file w)
           (trace w ++ Print "[INFO] Waiting for IBKR TWS to start..."
                    :: concat (repeat [Poll false; Sleep 5] n))
           (calls w) (polls w + n) (attempts w),
     Ok tt).
Proof.
  intros Hnot. unfold monitor_ibkr, init_db, ret, print, emit. unfold bind at 1 2.
  rewrite loop_waits by exact Hnot.
  cbn [db json_file trace calls polls attempts]. rewrite <- app_assoc. reflexivity.
Qed.

Lemma monitor_ibkr_waits_for_terminal_witness :
  monitor_ibkr (scenario fill_flat false) 3 fresh
  = (World (db fresh) (json_file fresh)
           (trace fresh ++ Print "[INFO] Waiting for IBKR TWS to start..."
                        :: concat (repeat [Poll false; Sleep 5] 3))
           (calls fresh) (polls fresh + 3) (attempts fresh),
     Ok tt).
Proof.
  apply (monitor_ibkr_waits_for_terminal (scenario fill_flat false) 3 fresh).
  intros p Hp. destruct p as [|[|[|p]]]; [reflexivity | reflexivity | reflexivity | lia].
Defined.



(** X14. Any number of calls in a row keep the table and the document in
    step: with payloads that are JSON values and a document that can be
    appended to, the table gains one row per call and the document, read
    back, one entry per call, in call order, the [k]-th row and the [k]-th
    entry carrying the same reading of the clock, event type and
    description, and the payload as text and as value. *)
Theorem run_keeps_stores_in_step env steps :
  forall w l,
    forallb is_call steps = true -> Forall step_ok steps ->
    stored_entries (json_file w) = Some l ->
    db (run env steps w) = (db w ++ history_rows env (calls w) steps)%list /\
    stored_entries (json_file (run env steps w))
    = Some (l ++ history_entries env (calls w) steps)%list /\
    List.length (history_rows env (calls w) steps) = List.length steps /\
    List.length (history_entries env (calls w) steps) = List.length steps.
Proof.
  induction steps as [|[et desc raw | file] steps IH]; intros w l Hcalls Hok Hs.
  - cbn [run history_rows history_entries]. rewrite !app_nil_r. auto.
  - apply Forall_cons_iff in Hok as [Hraw Hok]. cbn [step_ok] in Hraw.
    destruct (log_event_step env et desc raw w l Hraw Hs) as (w1 & E1 & Hdb1 & Hc1 & Hs1).
    cbn [run history_rows history_entries forallb is_call andb] in *.
    rewrite E1. cbn [fst].
    destruct (IH w1 _ Hcalls Hok Hs1) as (Hdb & Hdoc & Hlr & Hle).
    rewrite Hc1 in *. rewrite Hdb, Hdoc, Hdb1, <- !app_assoc.
    cbn [List.length app]. auto.
  - discriminate.
Qed.

Lemma run_keeps_stores_in_step_witness :
  db (run quiet [Call "Error" "first" (PDict []); Call "Error" "second" (PDict [])] fresh)
  = (db fresh
       ++ history_rows quiet (calls fresh)
            [Call "Error" "first" (PDict []); Call "Error" "second" (PDict [])])%list /\
  stored_entries
    (json_file (run quiet [Call "Error" "first" (PDict []); Call "Error" "second" (PDict [])]
                  fresh))
  = Some ([] ++ history_entries quiet (calls fresh)
                  [Call "Error" "first" (PDict []); Call "Error" "second" (PDict [])])%list /\
  List.length (history_rows quiet (calls fresh)
                 [Call "Error" "first" (PDict []); Call "Error" "second" (PDict [])])
  = List.length [Call "Error" "first" (PDict []); Call "Error" "second" (PDict [])] /\
  List.length (history_entries quiet (calls fresh)
                 [Call "Error" "first" (PDict []); Call "Error" "second" (PDict [])])
  = List.length [Call "Error" "first" (PDict []); Call "Error" "second" (PDict [])].
Proof.
  apply (run_keeps_stores_in_step quiet
           [Call "Error" "first" (PDict []); Call "Error" "second" (PDict [])] fresh []).
  - reflexivity.
  - repeat constructor.
  - reflexivity.
Defined.

Lemma session_rows_with_bot env bot n evs :
  session_rows (with_bot env bot) n evs = session_rows env n evs.
Proof.
  revert n; induction evs as [|ev evs IH]; intros n; cbn [session_rows]; [reflexivity|].
  now rewrite IH.
Qed.

Lemma turn_rows_with_bot env bot p k c :
  turn_rows (with_bot env bot) p k c = turn_rows env p k c.
Proof.
  unfold turn_rows, ready_at, with_bot.
  cbn [TWS_PROCESS_NAME process_iter ib_connect ib_session utcnow].
  destruct (is_tws_running _ _); [|reflexivity].
  destruct (ib_connect env k); [reflexivity|].
  fold (with_bot env bot). now rewrite session_rows_with_bot.
Qed.

Lemma expected_rows_with_bot env bot n :
  forall p k c, expected_rows (with_bot env bot) n p k c = expected_rows env n p k c.
Proof.
  induction n as [|n IH]; intros p k c; cbn [expected_rows]; [reflexivity|].
  rewrite turn_rows_with_bot, IH. reflexivity.
Qed.

(** X15. What the Telegram bot does has no influence on what the
    supervisor logs: when the document can be appended to and the events
    encode, the supervisor keeps running and leaves the same table with any
    bot, failing or not, as with the one it has. *)
Theorem monitor_ibkr_rows_ignore_bot env bot n w :
  appendable w -> sessions_encode env ->
  snd (monitor_ibkr (with_bot env bot) n w) = Ok tt /\
  snd (monitor_ibkr env n w) = Ok tt /\
  db (fst (monitor_ibkr (with_bot env bot) n w)) = db (fst (monitor_ibkr env n w)).
Proof.
  intros Hw Henc.
  assert (Henc' : sessions_encode (with_bot env bot)) by exact Henc.
  destruct (monitor_ibkr_turns env n w) as (ts & alive & Hg & _ & Hal & Hap & Hrows).
  destruct (monitor_ibkr_turns (with_bot env bot) n w)
    as (ts' & alive' & Hg' & _ & Hal' & Hap' & Hrows').
  destruct (Hap Hw) as (-> & _). destruct (Hap' Hw) as (-> & _).
  split; [now apply Hal'|]. split; [now apply Hal|].
  destruct Hg as [_ ->]. destruct Hg' as [_ ->].
  cbn [inserted flat_map app].
  change (flat_map _ (concat ts')) with (inserted (concat ts')).
  change (flat_map _ (concat ts)) with (inserted (concat ts)).
  rewrite (Hrows Hw Henc), (Hrows' Hw Henc'), expected_rows_with_bot. reflexivity.
Qed.

Lemma monitor_ibkr_rows_ignore_bot_witness :
  snd (monitor_ibkr (with_bot (toggling fill_flat false)
                       (fun _ _ => Some (Exn "TimedOut" "Timed out"))) 4 fresh) = Ok tt /\
  snd (monitor_ibkr (toggling fill_flat false) 4 fresh) = Ok tt /\
  db (fst (monitor_ibkr (with_bot (toggling fill_flat false)
                           (fun _ _ => Some (Exn "TimedOut" "Timed out"))) 4 fresh))
  = db (fst (monitor_ibkr (toggling fill_flat false) 4 fresh)).
Proof.
  apply (monitor_ibkr_rows_ignore_bot (toggling fill_flat false)
           (fun _ _ => Some (Exn "TimedOut" "Timed out")) 4 fresh).
  - discriminate.
  - apply sessions_encode_flat.
Defined.
